(** * libstore: the storage contract, its adapters and the encryption decorator

    A shallow embedding of the Go package [libstore]: the interface [Ops]
    and the error types of ops.go, the error codes, the adapters
    [InMemoryOps] and [dbOps], and the decorator [CryptStore], together
    with the facts the package's specification states about them.

    Conventions of the embedding:
    - a Go [string] is a Rocq [string]; a Go [[]byte] is a [list byte]; the
      conversions [[]byte(s)] and [string(b)] are [list_byte_of_string] and
      [string_of_list_byte]; a nil slice and an empty slice are both [[]];
    - a Go [int] is a [Z];
    - a Go function returning [(T, error)] returns a pair [T * option error]
      ([None] is the nil error); one returning only [error] returns
      [option error];
    - a method with a pointer or reference receiver that mutates its object
      takes the object's state and returns the new state next to its result;
    - the mutexes of the adapters are not modelled: every operation runs
      alone, from its first statement to its return. *)

From Stdlib Require Import ZArith Ascii String List Lia Bool.
From stdpp Require Import gmap strings list.

Set Warnings "-register-all".

Open Scope Z_scope.

(** ** Errors (ops.go, cryptor.go) *)

(** A value of Go's interface type [error].  The eight string types the
    package declares are one constructor each; [errorString] is the result
    of [errors.New]; [wrapErrors] is what [fmt.Errorf] builds from a format
    with [%w] verbs (its text and the errors it wraps, in order);
    [ParseError] is [*time.ParseError]; [ForeignError] is an error value
    made by another package (libcipher, database/sql), known by its text. *)
Inductive error : Type :=
| LocationError (e : string)
| KeyError (e : string)
| EntryError (e : string)
| OpsInternalError (e : string)
| KeyNotFoundError (e : string)
| ValidationError (e : string)
| DecryptionError (e : string)
| TimestampError (e : string)
| errorString (s : string)
| wrapErrors (msg : string) (errs : list error)
| ParseError (Layout Value LayoutElem ValueElem Message : string)
| ForeignError (pkg msg : string).

Definition bytes := list Byte.byte.

(** [quote] of package time: the string between double quotes, a backslash
    before a double quote or a backslash, and every byte below space or
    above 0x7f as a hexadecimal escape. *)
Definition lowerhex (n : N) : ascii :=
  nth (N.to_nat n) (list_ascii_of_string "0123456789abcdef") "0"%char.

Definition dquote : ascii := Ascii.ascii_of_N 34.
Definition backslash : ascii := Ascii.ascii_of_N 92.

Fixpoint quote_body (s : list ascii) : list ascii :=
  match s with
  | [] => [dquote]
  | c :: s' =>
      let n := Ascii.N_of_ascii c in
      if ((128 <=? n)%N || (n <? 32)%N)%bool then
        backslash :: "x"%char :: lowerhex (N.shiftr n 4) :: lowerhex (N.land n 15)
          :: quote_body s'
      else if ((n =? 34)%N || (n =? 92)%N)%bool then
        backslash :: c :: quote_body s'
      else c :: quote_body s'
  end.

Definition quote (s : string) : string :=
  string_of_list_ascii (dquote :: quote_body (list_ascii_of_string s)).

(** The method [Error] of each error type. *)
Definition Error (err : error) : string :=
  match err with
  | LocationError e => "libstore: " +:+ e
  | KeyError e => "libstore: " +:+ e
  | EntryError e => "libstore: " +:+ e
  | OpsInternalError e => "libstore: " +:+ e
  | KeyNotFoundError e => "libstore: " +:+ e
  | ValidationError e => "libstore/ops: validation error: " +:+ e
  | DecryptionError e => "libstore/ops: decryption error: " +:+ e
  | TimestampError e => "libstore/ops: timestamp error: " +:+ e
  | errorString s => s
  | wrapErrors msg _ => msg
  | ParseError layout value layoutElem valueElem message =>
      if decide (message = EmptyString) then
        "parsing time " +:+ quote value +:+ " as " +:+ quote layout
          +:+ ": cannot parse " +:+ quote valueElem +:+ " as " +:+ quote layoutElem
      else "parsing time " +:+ quote value +:+ message
  | ForeignError _ msg => msg
  end.

(** [fmt.Errorf("%w: %w", a, b)]. *)
Definition Errorf_w_w (a b : error) : error :=
  wrapErrors (Error a +:+ ": " +:+ Error b) [a; b].

(** [fmt.Errorf("%w : %w", a, b)] (dbOps.List). *)
Definition Errorf_w_sp_w (a b : error) : error :=
  wrapErrors (Error a +:+ " : " +:+ Error b) [a; b].

(** [errors.As(err, &target)] for a target of type [DecryptionError]: the
    error itself, or one found by unwrapping, depth first. *)
Fixpoint As_DecryptionError (err : error) : bool :=
  match err with
  | DecryptionError _ => true
  | wrapErrors _ errs => existsb As_DecryptionError errs
  | _ => false
  end.

(** The type switch of [NewError] looks at the dynamic type of the value
    itself: nothing is unwrapped. *)
Inductive kind : Type :=
| KLocation | KKey | KEntry | KOpsInternal | KKeyNotFound | KOther.

Definition kind_of (err : error) : kind :=
  match err with
  | LocationError _ => KLocation
  | KeyError _ => KKey
  | EntryError _ => KEntry
  | OpsInternalError _ => KOpsInternal
  | KeyNotFoundError _ => KKeyNotFound
  | _ => KOther
  end.

(** *** The error codes *)

Definition ErrorCode := Z.

Definition ErrUnknown : ErrorCode := 0.
Definition ErrLocation : ErrorCode := 1.
Definition ErrKey : ErrorCode := 2.
Definition ErrEntry : ErrorCode := 3.
Definition ErrOpsInternal : ErrorCode := 4.
Definition ErrKeyNotFound : ErrorCode := 5.

Record CodedError : Type := { Code : ErrorCode; Message : string }.

Definition NewError (err : error) : CodedError :=
  match err with
  | LocationError _ => {| Code := ErrLocation; Message := Error err |}
  | KeyError _ => {| Code := ErrKey; Message := Error err |}
  | EntryError _ => {| Code := ErrEntry; Message := Error err |}
  | OpsInternalError _ => {| Code := ErrOpsInternal; Message := Error err |}
  | KeyNotFoundError _ => {| Code := ErrKeyNotFound; Message := Error err |}
  | _ => {| Code := ErrUnknown; Message := "unknown error" |}
  end.

Definition TranslateToError (code : Z) (message : string) : error :=
  match code with
  | 1 => LocationError message
  | 2 => KeyError message
  | 3 => EntryError message
  | 4 => OpsInternalError message
  | 5 => KeyNotFoundError message
  | _ => errorString message
  end.

(** ** The storage contract (ops.go) *)

(** The interface [Ops], over the state [S] of the object that implements
    it.  The [context.Context] argument is not modelled. *)
Record Ops (S : Type) : Type := {
  Ops_Create : string -> S -> option error * S;
  Ops_ReadAll : string -> S -> (list bytes * option error) * S;
  Ops_Read : string -> S -> (bytes * option error) * S;
  Ops_Put : string -> bytes -> S -> option error * S;
  Ops_Delete : string -> S -> option error * S;
  Ops_List : S -> (list string * option error) * S
}.
Arguments Ops_Create {S}.
Arguments Ops_ReadAll {S}.
Arguments Ops_Read {S}.
Arguments Ops_Put {S}.
Arguments Ops_Delete {S}.
Arguments Ops_List {S}.

(** ** The in-memory adapter *)

Module InMemoryOps.

(** The field [store map[string][][]byte]. *)
Abbreviation t := (gmap string (list bytes)).

Definition NewInMemoryOps : t := ∅.

Definition Create (key : string) (ops : t) : option error * t :=
  match ops !! key with
  | Some _ => (Some (KeyError ("key " +:+ key +:+ " already exists")), ops)
  | None => (None, <[key := []]> ops)
  end.

Definition ReadAll (key : string) (ops : t) : (list bytes * option error) * t :=
  match ops !! key with
  | None => (([], Some (KeyNotFoundError ("key " +:+ key +:+ " not found"))), ops)
  | Some data => ((data, None), ops)
  end.

Definition Read (key : string) (ops : t) : (bytes * option error) * t :=
  match ops !! key with
  | None => (([], Some (KeyNotFoundError ("key " +:+ key +:+ " not found"))), ops)
  | Some data =>
      if (length data =? 0)%nat then
        (([], Some (EntryError ("no entries found for key " +:+ key))), ops)
      else ((List.nth (length data - 1) data [], None), ops)
  end.

Definition Put (key : string) (entry : bytes) (ops : t) : option error * t :=
  match ops !! key with
  | None => (Some (KeyNotFoundError ("key " +:+ key +:+ " not found")), ops)
  | Some _ => (None, <[key := [entry]]> ops)
  end.

Definition Delete (key : string) (ops : t) : option error * t :=
  match ops !! key with
  | None => (Some (KeyNotFoundError ("key " +:+ key +:+ " not found")), ops)
  | Some _ => (None, delete key ops)
  end.

(** Go ranges over a map in no fixed order; the keys come here in the
    order of [map_to_list]. *)
Definition List_ (ops : t) : (list string * option error) * t :=
  ((fst <$> map_to_list ops, None), ops).

Definition ops : Ops t :=
  Build_Ops t Create ReadAll Read Put Delete List_.

(** The calls a client can make on the adapter, and the state a sequence
    of calls leaves behind (the results are dropped). *)
Inductive call : Type :=
| CCreate (key : string)
| CReadAll (key : string)
| CRead (key : string)
| CPut (key : string) (entry : bytes)
| CDelete (key : string)
| CList.

Definition step (ops : t) (c : call) : t :=
  match c with
  | CCreate k => snd (Create k ops)
  | CReadAll k => snd (ReadAll k ops)
  | CRead k => snd (Read k ops)
  | CPut k e => snd (Put k e ops)
  | CDelete k => snd (Delete k ops)
  | CList => snd (List_ ops)
  end.

Definition run (cs : list call) : t := fold_left step cs NewInMemoryOps.

(** Every history is empty or a single entry. *)
Definition short_histories (ops : t) : Prop :=
  forall key data, ops !! key = Some data -> (length data <= 1)%nat.

End InMemoryOps.

(** ** The PostgreSQL adapter *)

Module dbOps.

(** The table FILES that [NewDBOps] creates: [id SERIAL PRIMARY KEY],
    [key TEXT NOT NULL], [value BYTEA] (nullable), [version BIGINT NOT NULL].
    The column [created_at] is never read and is left out.  The database is
    the list of rows in insertion order and the next serial number. *)
Record row : Type := { id : Z; key : string; value : option bytes; version : Z }.

Record t : Type := { FILES : list row; serial : Z }.

Definition empty : t := {| FILES := []; serial := 1 |}.

(** [sql.ErrNoRows], and the test [err == sql.ErrNoRows]. *)
Definition ErrNoRows : error := errorString "sql: no rows in result set".

Definition is_ErrNoRows (err : error) : bool :=
  match err with
  | errorString s => String.eqb s "sql: no rows in result set"
  | _ => false
  end.

(** *** The statements the adapter sends

    The model database answers every statement: the only error it returns is
    [sql.ErrNoRows], from [QueryRow(...).Scan] on an empty result. *)

Definition where_key (k : string) (db : t) : list row :=
  List.filter (fun r => String.eqb (key r) k) (FILES db).

(** [ORDER BY version]: a stable insertion sort; rows of equal version, whose
    order SQL leaves open, stay in insertion order. *)
Fixpoint insert_by (le : row -> row -> bool) (r : row) (l : list row) : list row :=
  match l with
  | [] => [r]
  | x :: l' => if le r x then r :: l else x :: insert_by le r l'
  end.

Definition order_by (le : row -> row -> bool) (l : list row) : list row :=
  fold_right (insert_by le) [] l.

Definition version_asc (r x : row) : bool := version r <=? version x.
Definition version_desc (r x : row) : bool := version x <=? version r.

(** Scanning a BYTEA column into a [[]byte]: NULL gives the nil slice. *)
Definition scan_bytes (v : option bytes) : bytes :=
  match v with Some b => b | None => [] end.

(** [QueryRow("SELECT key FROM FILES WHERE key = $1").Scan(&existingKey)];
    without a row the variable keeps its zero value. *)
Definition select_key (k : string) (db : t) : string * option error :=
  match where_key k db with
  | [] => (EmptyString, Some ErrNoRows)
  | r :: _ => (key r, None)
  end.

(** [QueryRow("SELECT value ... ORDER BY version DESC LIMIT 1").Scan(&value)]. *)
Definition select_last_value (k : string) (db : t) : bytes * option error :=
  match order_by version_desc (where_key k db) with
  | [] => ([], Some ErrNoRows)
  | r :: _ => (scan_bytes (value r), None)
  end.

(** [Query("SELECT value ... ORDER BY version ASC")]: the rows to iterate. *)
Definition select_values (k : string) (db : t) : list (option bytes) * option error :=
  (List.map value (order_by version_asc (where_key k db)), None).

(** [SELECT COALESCE(MAX(version), 0) FROM FILES WHERE key = $1]. *)
Definition select_max_version (k : string) (db : t) : Z * option error :=
  match List.map version (where_key k db) with
  | [] => (0, None)
  | v :: vs => (fold_left Z.max vs v, None)
  end.

Definition insert_row (k : string) (v : option bytes) (ver : Z) (db : t)
  : option error * t :=
  (None, {| FILES := FILES db ++ [{| id := serial db; key := k; value := v; version := ver |}];
            serial := serial db + 1 |}).

(** [Exec("DELETE FROM FILES WHERE key = $1")] and its [RowsAffected]. *)
Definition delete_rows (k : string) (db : t) : (Z * option error) * t :=
  ((Z.of_nat (length (where_key k db)), None),
   {| FILES := List.filter (fun r => negb (String.eqb (key r) k)) (FILES db);
      serial := serial db |}).

(** *** The methods *)

(** The test [err != nil && err != sql.ErrNoRows]: the error it holds for. *)
Definition other_than_ErrNoRows (err : option error) : option error :=
  match err with
  | Some e => if is_ErrNoRows e then None else Some e
  | None => None
  end.

Definition Create (k : string) (d : t) : option error * t :=
  let '(existingKey, err) := select_key k d in
  match other_than_ErrNoRows err with
  | Some e => (Some (Errorf_w_w (OpsInternalError "failed to check existing key") e), d)
  | None =>
      if negb (String.eqb existingKey EmptyString) then
        (Some (KeyError ("key already exists: " +:+ k)), d)
      else
        match insert_row k None 0 d with
        | (Some e, d') => (Some (Errorf_w_w (OpsInternalError "failed to create key") e), d')
        | (None, d') => (None, d')
        end
  end.

Definition Delete (k : string) (d : t) : option error * t :=
  match delete_rows k d with
  | ((_, Some e), d') => (Some (Errorf_w_w (OpsInternalError "failed to delete key") e), d')
  | ((rowsAffected, None), d') =>
      if rowsAffected =? 0 then (Some (KeyNotFoundError ("key not found: " +:+ k)), d')
      else (None, d')
  end.

(** One key per row of the table: a key with several versions is listed
    several times. *)
Definition List_ (d : t) : (list string * option error) * t :=
  ((List.map key (FILES d), None), d).

Definition Read (k : string) (d : t) : (bytes * option error) * t :=
  match select_last_value k d with
  | (_, Some e) =>
      if is_ErrNoRows e then (([], Some (KeyNotFoundError ("key not found: " +:+ k))), d)
      else (([], Some (Errorf_w_w (OpsInternalError "failed to read last entry") e)), d)
  | (value, None) => ((value, None), d)
  end.

Definition ReadAll (k : string) (d : t) : (list bytes * option error) * t :=
  match select_values k d with
  | (_, Some e) =>
      (([], Some (Errorf_w_w (OpsInternalError "failed to read whole content") e)), d)
  | (rows, None) => ((List.map scan_bytes rows, None), d)
  end.

(** The transaction commits when the insert succeeded and is rolled back
    otherwise; the result of [Commit] is assigned in the deferred function
    to a local variable and never returned. *)
Definition Put (k : string) (entry : bytes) (d : t) : option error * t :=
  let '(maxVersion, err) := select_max_version k d in
  match other_than_ErrNoRows err with
  | Some e => (Some (Errorf_w_w (OpsInternalError "failed to get max version") e), d)
  | None =>
      match insert_row k (Some entry) (maxVersion + 1) d with
      | (Some e, _) => (Some (Errorf_w_w (OpsInternalError "failed to replace entry") e), d)
      | (None, d') => (None, d')
      end
  end.

Definition ops : Ops t := Build_Ops t Create ReadAll Read Put Delete List_.

End dbOps.

(** ** Package time, as far as the decorator uses it

    The decorator calls [time.Now().UTC()], [Time.Format], [time.Parse] and
    [Time.After], always with the layout [tsFormat].  A [Time] is given by
    what its methods [Year], [Month], [Day], [Hour], [Minute], [Second],
    [Nanosecond] and [Location] report: the civil date and time of the
    instant in the time's own zone.  Text is a [list ascii] inside the
    package model and a [string] at its interface.  The functions follow
    format.go of Go 1.20 and later, where [Parse] checks the day of the
    month and the range of a zone offset. *)

Module GoTime.

Record Location : Type := { zoneName : string; zoneOffset : Z }.

Definition UTC : Location := {| zoneName := "UTC"; zoneOffset := 0 |}.

Definition FixedZone (name : string) (offset : Z) : Location :=
  {| zoneName := name; zoneOffset := offset |}.

Record Time : Type := {
  Year : Z; Month : Z; Day : Z;
  Hour : Z; Minute : Z; Second : Z; Nanosecond : Z;
  Loc : Location
}.

Definition isLeap (year : Z) : bool :=
  (Z.rem year 4 =? 0) && (negb (Z.rem year 100 =? 0) || (Z.rem year 400 =? 0)).

Definition daysBefore : list Z :=
  [0; 31; 59; 90; 120; 151; 181; 212; 243; 273; 304; 334; 365].

Definition daysIn (m year : Z) : Z :=
  if (m =? 2) && isLeap year then 29
  else nth (Z.to_nat m) daysBefore 0 - nth (Z.to_nat (m - 1)) daysBefore 0.

(** The fields of a [Time] value are always those of a civil date and time. *)
Definition valid (t : Time) : bool :=
  (1 <=? Month t) && (Month t <=? 12)
  && (1 <=? Day t) && (Day t <=? daysIn (Month t) (Year t))
  && (0 <=? Hour t) && (Hour t <? 24)
  && (0 <=? Minute t) && (Minute t <? 60)
  && (0 <=? Second t) && (Second t <? 60)
  && (0 <=? Nanosecond t) && (Nanosecond t <? 1000000000).

(** Days from January 1 of year 1 to January 1 of [year], and the seconds of
    the instant counted from January 1 of year 1, 00:00:00 UTC (Go counts
    from another year; only differences and comparisons are used). *)
Definition daysSinceEpoch (year : Z) : Z :=
  let y := year - 1 in 365 * y + y / 4 - y / 100 + y / 400.

Definition sec (t : Time) : Z :=
  let d := daysSinceEpoch (Year t)
           + nth (Z.to_nat (Month t - 1)) daysBefore 0
           + (if isLeap (Year t) && (3 <=? Month t) then 1 else 0)
           + (Day t - 1) in
  d * 86400 + Hour t * 3600 + Minute t * 60 + Second t - zoneOffset (Loc t).

(** [t.After(u)], for times without a monotonic clock reading ([UTC] strips
    it and [Parse] never sets it). *)
Definition After (t u : Time) : bool :=
  (sec u <? sec t) || ((sec t =? sec u) && (Nanosecond u <? Nanosecond t)).

(** *** Layouts *)

(** The layout verbs that occur in [tsFormat]; the other verbs of the
    reference layout are not modelled. *)
Inductive std : Type :=
| stdNone
| stdLongYear
| stdZeroMonth
| stdZeroDay
| stdHour
| stdZeroMinute
| stdZeroSecond
| stdFracSecond9 (digits : nat) (sep : ascii)
| stdNumTZ
| stdTZ.

Fixpoint hasPrefix (p s : list ascii) : option (list ascii) :=
  match p, s with
  | [], _ => Some s
  | a :: p', b :: s' => if Ascii.eqb a b then hasPrefix p' s' else None
  | _ :: _, [] => None
  end.

Definition is_digit (c : ascii) : bool :=
  let n := N_of_ascii c in ((48 <=? n)%N && (n <=? 57)%N)%bool.

Definition digit_val (c : ascii) : Z := Z.of_N (N_of_ascii c) - 48.

Definition digit (d : Z) : ascii := ascii_of_N (48 + Z.to_N d).

(** [isDigit(s, i)]. *)
Definition isDigit (s : list ascii) (i : nat) : bool :=
  match List.nth_error s i with Some c => is_digit c | None => false end.

Definition verbs : list (string * std) :=
  [("2006", stdLongYear); ("01", stdZeroMonth); ("02", stdZeroDay);
   ("04", stdZeroMinute); ("05", stdZeroSecond); ("15", stdHour);
   ("-0700", stdNumTZ); ("MST", stdTZ)].

Fixpoint verb_at (vs : list (string * std)) (layout : list ascii)
  : option (std * list ascii * list ascii) :=
  match vs with
  | [] => None
  | (v, s) :: vs' =>
      match hasPrefix (list_ascii_of_string v) layout with
      | Some suffix => Some (s, list_ascii_of_string v, suffix)
      | None => verb_at vs' layout
      end
  end.

Fixpoint count9 (s : list ascii) : nat :=
  match s with
  | c :: s' => if Ascii.eqb c "9" then S (count9 s') else O
  | [] => O
  end.

(** A period or comma followed by nines, and no digit after them, is a
    fractional second. *)
Definition frac_at (layout : list ascii) : option (std * list ascii * list ascii) :=
  match layout with
  | c :: rest =>
      if (Ascii.eqb c "." || Ascii.eqb c ",")%bool then
        let j := count9 rest in
        if ((0 <? j)%nat && negb (isDigit rest j))%bool then
          Some (stdFracSecond9 j c, firstn (S j) layout, skipn j rest)
        else None
      else None
  | [] => None
  end.

(** [nextStdChunk]: the text before the first verb, the verb, its text in
    the layout, and the rest of the layout. *)
Fixpoint nextStdChunk (layout : list ascii)
  : list ascii * std * list ascii * list ascii :=
  match layout with
  | [] => ([], stdNone, [], [])
  | c :: rest =>
      match verb_at verbs layout with
      | Some (s, str, suffix) => ([], s, str, suffix)
      | None =>
          match frac_at layout with
          | Some (s, str, suffix) => ([], s, str, suffix)
          | None =>
              let '(prefix, s, str, suffix) := nextStdChunk rest in
              (c :: prefix, s, str, suffix)
          end
      end
  end.

(** The chunks that the loops of [Format] and [Parse] go through, one call
    of [nextStdChunk] per iteration, up to the one without a verb. *)
Fixpoint chunks_fuel (fuel : nat) (layout : list ascii)
  : list (list ascii * std * list ascii) :=
  match fuel with
  | O => []
  | S fuel' =>
      let '(prefix, s, str, suffix) := nextStdChunk layout in
      match s with
      | stdNone => [(prefix, s, str)]
      | _ => (prefix, s, str) :: chunks_fuel fuel' suffix
      end
  end.

Definition chunks (layout : string) : list (list ascii * std * list ascii) :=
  let l := list_ascii_of_string layout in chunks_fuel (S (length l)) l.

(** *** Format *)

(** The [width] low decimal digits of [u], the most significant first. *)
Fixpoint zpad (width : nat) (u : Z) : list ascii :=
  match width with
  | O => []
  | S w => zpad w (u / 10) ++ [digit (u mod 10)]
  end.

Fixpoint ndigits_fuel (fuel : nat) (u : Z) : nat :=
  match fuel with
  | O => O
  | S f => if u =? 0 then O else S (ndigits_fuel f (u / 10))
  end.

(** The number of decimal digits of [u], one for zero. *)
Definition ndigits (u : Z) : nat :=
  if u =? 0 then 1%nat else ndigits_fuel (S (Z.to_nat (Z.log2 u))) u.

(** [appendInt(b, x, width)]: the sign, zeros up to [width], the digits. *)
Definition appendInt (b : list ascii) (x : Z) (width : nat) : list ascii :=
  let u := Z.abs x in
  let b := if x <? 0 then b ++ ["-"%char] else b in
  b ++ zpad (Nat.max width (ndigits u)) u.

Fixpoint dropZeros (rb : list ascii) : list ascii :=
  match rb with
  | c :: r => if Ascii.eqb c "0" then dropZeros r else rb
  | [] => []
  end.

(** [appendNano(b, nanosec, std)] for a verb of nines ([trim] is true):
    nothing for a zero fraction, else the separator and the nine digits,
    cut to [n] digits, and then zeros and a separator taken off the end of
    the buffer. *)
Definition appendNano (b : list ascii) (nanosec : Z) (n : nat) (dot : ascii)
  : list ascii :=
  if ((n =? 0)%nat || (nanosec =? 0))%bool then b
  else
    let b1 := appendInt (b ++ [dot]) nanosec 9 in
    let b2 := if (n <? 9)%nat then firstn (length b1 - 9 + n) b1 else b1 in
    let rb := dropZeros (rev b2) in
    match rb with
    | c :: r => if Ascii.eqb c dot then rev r else rev rb
    | [] => []
    end.

(** The sign, hours and minutes of a zone offset, as [-0700]. *)
Definition appendZone (b : list ascii) (offset : Z) : list ascii :=
  let zone := Z.quot offset 60 in
  let '(b, zone) := if zone <? 0 then (b ++ ["-"%char], - zone)
                    else (b ++ ["+"%char], zone) in
  let b := appendInt b (Z.quot zone 60) 2 in
  appendInt b (Z.rem zone 60) 2.

Definition appendStd (b : list ascii) (t : Time) (s : std) : list ascii :=
  match s with
  | stdNone => b
  | stdLongYear => appendInt b (Year t) 4
  | stdZeroMonth => appendInt b (Month t) 2
  | stdZeroDay => appendInt b (Day t) 2
  | stdHour => appendInt b (Hour t) 2
  | stdZeroMinute => appendInt b (Minute t) 2
  | stdZeroSecond => appendInt b (Second t) 2
  | stdFracSecond9 n dot => appendNano b (Nanosecond t) n dot
  | stdNumTZ => appendZone b (zoneOffset (Loc t))
  | stdTZ =>
      if negb (String.eqb (zoneName (Loc t)) EmptyString)
      then b ++ list_ascii_of_string (zoneName (Loc t))
      else appendZone b (zoneOffset (Loc t))
  end.

Definition Format_chunk (t : Time) (b : list ascii)
  (c : list ascii * std * list ascii) : list ascii :=
  let '(prefix, s, _) := c in appendStd (b ++ prefix) t s.

Definition Format (t : Time) (layout : string) : string :=
  string_of_list_ascii (fold_left (Format_chunk t) (chunks layout) []).

(** *** Parse *)

Fixpoint cutspace (s : list ascii) : list ascii :=
  match s with
  | c :: s' => if Ascii.eqb c " " then cutspace s' else s
  | [] => []
  end.

(** [skip(value, prefix)]: the value after the prefix, and whether the
    value does not start with it. *)
Fixpoint skip_fuel (fuel : nat) (value prefix : list ascii) : list ascii * bool :=
  match fuel with
  | O => (value, false)
  | S fuel' =>
      match prefix with
      | [] => (value, false)
      | p :: prefix' =>
          if Ascii.eqb p " " then
            match value with
            | v :: _ =>
                if negb (Ascii.eqb v " ") then (value, true)
                else skip_fuel fuel' (cutspace value) (cutspace prefix)
            | [] => skip_fuel fuel' (cutspace value) (cutspace prefix)
            end
          else
            match value with
            | v :: value' =>
                if Ascii.eqb v p then skip_fuel fuel' value' prefix'
                else (value, true)
            | [] => (value, true)
            end
      end
  end.

Definition skip (value prefix : list ascii) : list ascii * bool :=
  skip_fuel (S (length prefix)) value prefix.

(** [getnum(s, fixed)]: one or two digits (two when [fixed]). *)
Definition getnum (s : list ascii) (fixed : bool) : Z * list ascii * bool :=
  match s with
  | c0 :: s1 =>
      if negb (is_digit c0) then (0, s, true)
      else
        match s1 with
        | c1 :: s2 =>
            if is_digit c1 then (digit_val c0 * 10 + digit_val c1, s2, false)
            else if fixed then (0, s, true) else (digit_val c0, s1, false)
        | [] => if fixed then (0, s, true) else (digit_val c0, s1, false)
        end
  | [] => (0, s, true)
  end.

(** [leadingInt(s)], from the value [x] read so far: the number, the rest,
    and whether the number overflowed. *)
Fixpoint leadingInt_from (x : Z) (s : list ascii) : Z * list ascii * bool :=
  match s with
  | c :: s' =>
      if negb (is_digit c) then (x, s, false)
      else if 2 ^ 63 / 10 <? x then (0, [], true)
      else
        let x' := x * 10 + digit_val c in
        if 2 ^ 63 <? x' then (0, [], true) else leadingInt_from x' s'
  | [] => (x, [], false)
  end.

Definition leadingInt (s : list ascii) : Z * list ascii * bool :=
  leadingInt_from 0 s.

Definition atoi (s : list ascii) : Z * bool :=
  let '(neg, s1) :=
    match s with
    | c :: s' =>
        if (Ascii.eqb c "-" || Ascii.eqb c "+")%bool then (Ascii.eqb c "-", s')
        else (false, s)
    | [] => (false, s)
    end in
  let '(q, rem, err) := leadingInt s1 in
  if (err || (0 <? length rem)%nat)%bool then (0, true)
  else (if neg then - q else q, false).

Definition commaOrPeriod (c : ascii) : bool :=
  (Ascii.eqb c "." || Ascii.eqb c ",")%bool.

(** [parseNanoseconds(value, nbytes)]: the nanoseconds, the name of what is
    out of range, and whether the text is bad. *)
Definition parseNanoseconds (value : list ascii) (nbytes : nat)
  : Z * string * bool :=
  match value with
  | c :: _ =>
      if negb (commaOrPeriod c) then (0, EmptyString, true)
      else
        let '(value, nbytes) :=
          if (10 <? nbytes)%nat then (firstn 10 value, 10%nat) else (value, nbytes) in
        let '(ns, err) := atoi (skipn 1 (firstn nbytes value)) in
        if err then (ns, EmptyString, true)
        else if ns <? 0 then (ns, "fractional second", false)
        else (ns * 10 ^ Z.of_nat (10 - nbytes), EmptyString, false)
  | [] => (0, EmptyString, true)
  end.

Definition startsWith (p : string) (s : list ascii) : bool :=
  match hasPrefix (list_ascii_of_string p) s with Some _ => true | None => false end.

Definition parseSignedOffset (value : list ascii) : nat :=
  match value with
  | sign :: rest =>
      if negb (Ascii.eqb sign "-" || Ascii.eqb sign "+") then O
      else
        let '(x, rem, err) := leadingInt rest in
        if (err || (length rem =? length rest)%nat)%bool then O
        else if 23 <? x then O
        else (length value - length rem)%nat
  | [] => O
  end.

Definition parseGMT (value : list ascii) : nat :=
  let value := skipn 3 value in
  if (length value =? 0)%nat then 3%nat else (3 + parseSignedOffset value)%nat.

Definition is_upper (c : ascii) : bool :=
  let n := N_of_ascii c in ((65 <=? n)%N && (n <=? 90)%N)%bool.

Fixpoint countUpper (limit : nat) (s : list ascii) : nat :=
  match limit, s with
  | S l, c :: s' => if is_upper c then S (countUpper l s') else O
  | _, _ => O
  end.

(** [parseTimeZone(value)]: the length of the zone abbreviation the value
    starts with, and whether there is one. *)
Definition parseTimeZone (value : list ascii) : nat * bool :=
  if (length value <? 3)%nat then (O, false)
  else if (startsWith "ChST" value || startsWith "MeST" value)%bool then (4%nat, true)
  else if startsWith "GMT" value then (parseGMT value, true)
  else if (startsWith "+" value || startsWith "-" value)%bool then
    let l := parseSignedOffset value in (l, (0 <? l)%nat)
  else
    match countUpper 6 value with
    | 3%nat => (3%nat, true)
    | 4%nat =>
        if (Ascii.eqb (nth 3 value "0"%char) "T" || startsWith "WITA" value)%bool
        then (4%nat, true) else (O, false)
    | 5%nat => if Ascii.eqb (nth 4 value "0"%char) "T" then (5%nat, true) else (O, false)
    | _ => (O, false)
    end.

(** The time being constructed by [Parse]. *)
Record fields : Type := {
  f_year : Z; f_month : Z; f_day : Z;
  f_hour : Z; f_min : Z; f_sec : Z; f_nsec : Z;
  f_z : option Location;
  f_zoneOffset : Z;
  f_zoneName : list ascii
}.

Definition fields0 : fields :=
  {| f_year := 0; f_month := -1; f_day := -1;
     f_hour := 0; f_min := 0; f_sec := 0; f_nsec := 0;
     f_z := None; f_zoneOffset := -1; f_zoneName := [] |}.

Definition set_f_year (v : Z) (f : fields) : fields :=
  {| f_year := v; f_month := f_month f; f_day := f_day f; f_hour := f_hour f;
     f_min := f_min f; f_sec := f_sec f; f_nsec := f_nsec f; f_z := f_z f;
     f_zoneOffset := f_zoneOffset f; f_zoneName := f_zoneName f |}.

Definition set_f_month (v : Z) (f : fields) : fields :=
  {| f_year := f_year f; f_month := v; f_day := f_day f; f_hour := f_hour f;
     f_min := f_min f; f_sec := f_sec f; f_nsec := f_nsec f; f_z := f_z f;
     f_zoneOffset := f_zoneOffset f; f_zoneName := f_zoneName f |}.

Definition set_f_day (v : Z) (f : fields) : fields :=
  {| f_year := f_year f; f_month := f_month f; f_day := v; f_hour := f_hour f;
     f_min := f_min f; f_sec := f_sec f; f_nsec := f_nsec f; f_z := f_z f;
     f_zoneOffset := f_zoneOffset f; f_zoneName := f_zoneName f |}.

Definition set_f_hour (v : Z) (f : fields) : fields :=
  {| f_year := f_year f; f_month := f_month f; f_day := f_day f; f_hour := v;
     f_min := f_min f; f_sec := f_sec f; f_nsec := f_nsec f; f_z := f_z f;
     f_zoneOffset := f_zoneOffset f; f_zoneName := f_zoneName f |}.

Definition set_f_min (v : Z) (f : fields) : fields :=
  {| f_year := f_year f; f_month := f_month f; f_day := f_day f;
     f_hour := f_hour f; f_min := v; f_sec := f_sec f; f_nsec := f_nsec f;
     f_z := f_z f; f_zoneOffset := f_zoneOffset f;
     f_zoneName := f_zoneName f |}.

Definition set_f_sec (v : Z) (f : fields) : fields :=
  {| f_year := f_year f; f_month := f_month f; f_day := f_day f;
     f_hour := f_hour f; f_min := f_min f; f_sec := v; f_nsec := f_nsec f;
     f_z := f_z f; f_zoneOffset := f_zoneOffset f;
     f_zoneName := f_zoneName f |}.

Definition set_f_nsec (v : Z) (f : fields) : fields :=
  {| f_year := f_year f; f_month := f_month f; f_day := f_day f;
     f_hour := f_hour f; f_min := f_min f; f_sec := f_sec f; f_nsec := v;
     f_z := f_z f; f_zoneOffset := f_zoneOffset f;
     f_zoneName := f_zoneName f |}.

Definition set_f_z (v : option Location) (f : fields) : fields :=
  {| f_year := f_year f; f_month := f_month f; f_day := f_day f;
     f_hour := f_hour f; f_min := f_min f; f_sec := f_sec f; f_nsec := f_nsec f;
     f_z := v; f_zoneOffset := f_zoneOffset f; f_zoneName := f_zoneName f |}.

Definition set_f_zoneOffset (v : Z) (f : fields) : fields :=
  {| f_year := f_year f; f_month := f_month f; f_day := f_day f;
     f_hour := f_hour f; f_min := f_min f; f_sec := f_sec f; f_nsec := f_nsec f;
     f_z := f_z f; f_zoneOffset := v; f_zoneName := f_zoneName f |}.

Definition set_f_zoneName (v : list ascii) (f : fields) : fields :=
  {| f_year := f_year f; f_month := f_month f; f_day := f_day f;
     f_hour := f_hour f; f_min := f_min f; f_sec := f_sec f; f_nsec := f_nsec f;
     f_z := f_z f; f_zoneOffset := f_zoneOffset f; f_zoneName := v |}.

Definition out_of_range (name : string) (bad : bool) : string :=
  if bad then name else EmptyString.

Fixpoint countDigits (s : list ascii) : nat :=
  match s with
  | c :: s' => if is_digit c then S (countDigits s') else O
  | [] => O
  end.

(** One case of the switch in [Parse]: the verb [s] read from [value], with
    the verb [next] that follows it in the layout.  The result is the time
    so far, the rest of the value, [rangeErrString] and whether [err] is
    set. *)
Definition parse_std (s next : std) (f : fields) (value : list ascii)
  : fields * list ascii * string * bool :=
  match s with
  | stdNone => (f, value, EmptyString, false)
  | stdLongYear =>
      if ((length value <? 4)%nat || negb (isDigit value 0))%bool
      then (f, value, EmptyString, true)
      else
        let '(year, err) := atoi (firstn 4 value) in
        (set_f_year year f, skipn 4 value, EmptyString, err)
  | stdZeroMonth =>
      let '(month, value, err) := getnum value true in
      (set_f_month month f, value,
       out_of_range "month" (negb err && ((month <=? 0) || (12 <? month))), err)
  | stdZeroDay =>
      let '(day, value, err) := getnum value true in
      (set_f_day day f, value, EmptyString, err)
  | stdHour =>
      let '(hour, value, err) := getnum value false in
      (set_f_hour hour f, value,
       out_of_range "hour" ((hour <? 0) || (24 <=? hour)), err)
  | stdZeroMinute =>
      let '(min, value, err) := getnum value true in
      (set_f_min min f, value,
       out_of_range "minute" ((min <? 0) || (60 <=? min)), err)
  | stdZeroSecond =>
      let '(sec, value, err) := getnum value true in
      let f := set_f_sec sec f in
      if err then (f, value, EmptyString, true)
      else if ((sec <? 0) || (60 <=? sec))%bool then (f, value, "second", false)
      else
        match value with
        | c :: _ =>
            if (commaOrPeriod c && isDigit value 1)%bool then
              match next with
              | stdFracSecond9 _ _ => (f, value, EmptyString, false)
              | _ =>
                  let n := (1 + countDigits (skipn 1 value))%nat in
                  let '(nsec, rangeErrString, err) := parseNanoseconds value n in
                  (set_f_nsec nsec f, skipn n value, rangeErrString, err)
              end
            else (f, value, EmptyString, false)
        | [] => (f, value, EmptyString, false)
        end
  | stdNumTZ =>
      if (length value <? 5)%nat then (f, value, EmptyString, true)
      else
        let sign := nth 0 value "0"%char in
        let '(hr, _, err1) := getnum (firstn 2 (skipn 1 value)) true in
        let '(mm, err2) :=
          if err1 then (0, true)
          else let '(mm, _, e) := getnum (firstn 2 (skipn 3 value)) true in (mm, e) in
        let rangeErrString :=
          if 60 <? mm then "time zone offset minute"
          else if 24 <? hr then "time zone offset hour"
          else EmptyString in
        let zoneOffset := (hr * 60 + mm) * 60 in
        if Ascii.eqb sign "+" then
          (set_f_zoneOffset zoneOffset f, skipn 5 value, rangeErrString, err2)
        else if Ascii.eqb sign "-" then
          (set_f_zoneOffset (- zoneOffset) f, skipn 5 value, rangeErrString, err2)
        else (set_f_zoneOffset zoneOffset f, skipn 5 value, rangeErrString, true)
  | stdTZ =>
      if startsWith "UTC" value then
        (set_f_z (Some UTC) f, skipn 3 value, EmptyString, false)
      else
        let '(n, ok) := parseTimeZone value in
        if negb ok then (f, value, EmptyString, true)
        else (set_f_zoneName (firstn n value) f, skipn n value, EmptyString, false)
  | stdFracSecond9 _ _ =>
      match value with
      | c :: _ =>
          if (negb (commaOrPeriod c) || negb (isDigit value 1))%bool
          then (f, value, EmptyString, false)
          else
            let i := countDigits (skipn 1 value) in
            let '(nsec, rangeErrString, err) := parseNanoseconds value (1 + i) in
            (set_f_nsec nsec f, skipn (1 + i) value, rangeErrString, err)
      | [] => (f, value, EmptyString, false)
      end
  end.

Definition newParseError (alayout avalue : string)
  (layoutElem valueElem : list ascii) (message : string) : error :=
  ParseError alayout avalue (string_of_list_ascii layoutElem)
    (string_of_list_ascii valueElem) message.

(** The verb of the chunk that follows, for the case of the seconds. *)
Definition next_std (cs : list (list ascii * std * list ascii)) : std :=
  match cs with (_, s, _) :: _ => s | [] => stdNone end.

(** The loop of [Parse], one iteration per chunk of the layout. *)
Fixpoint parse_loop (alayout avalue : string)
  (cs : list (list ascii * std * list ascii)) (f : fields) (value : list ascii)
  : fields * list ascii * option error :=
  match cs with
  | [] => (f, value, None)
  | (prefix, s, stdstr) :: cs' =>
      let '(value1, bad) := skip value prefix in
      if bad then (f, value1, Some (newParseError alayout avalue prefix value1 EmptyString))
      else
        match s with
        | stdNone =>
            if (0 <? length value1)%nat then
              (f, value1,
               Some (newParseError alayout avalue [] value1
                       (": extra text: " +:+ quote (string_of_list_ascii value1))))
            else (f, value1, None)
        | _ =>
            let '(f', value2, rangeErrString, err) :=
              parse_std s (next_std cs') f value1 in
            if negb (String.eqb rangeErrString EmptyString) then
              (f', value2,
               Some (newParseError alayout avalue stdstr value2
                       (": " +:+ rangeErrString +:+ " out of range")))
            else if err then
              (f', value2, Some (newParseError alayout avalue stdstr value1 EmptyString))
            else parse_loop alayout avalue cs' f' value2
        end
  end.

Definition zeroTime : Time :=
  {| Year := 1; Month := 1; Day := 1; Hour := 0; Minute := 0; Second := 0;
     Nanosecond := 0; Loc := UTC |}.

(** [time.Parse(layout, value)].  After the loop every field is in its
    range, so that [Date] has nothing to normalise.  With a zone [UTC] in
    the value the time is in UTC whatever the numeric offset says; with a
    numeric offset the time is in a zone of that offset (Go may choose the
    local zone instead when it has the same offset and name: the instant is
    the same); with an abbreviation alone, which no layout with a numeric
    zone reaches, the fields are taken as UTC. *)
Definition Parse (layout value : string) : Time * option error :=
  let '(f, rest, err) :=
    parse_loop layout value (chunks layout) fields0 (list_ascii_of_string value) in
  match err with
  | Some e => (zeroTime, Some e)
  | None =>
      let month := if f_month f =? -1 then 1 else f_month f in
      let day := if f_day f =? -1 then 1 else f_day f in
      if ((day <? 1) || (daysIn month (f_year f) <? day))%bool then
        (zeroTime, Some (newParseError layout value [] rest ": day out of range"))
      else
        let date (l : Location) :=
          {| Year := f_year f; Month := month; Day := day;
             Hour := f_hour f; Minute := f_min f; Second := f_sec f;
             Nanosecond := f_nsec f; Loc := l |} in
        match f_z f with
        | Some z => (date z, None)
        | None =>
            if negb (f_zoneOffset f =? -1) then
              (date (FixedZone (string_of_list_ascii (f_zoneName f)) (f_zoneOffset f)), None)
            else (date UTC, None)
        end
  end.

(** *** The text of a timestamp, as the specification describes it

    The digits of a fraction of a second of [w] digits, without the zeros
    at its end; the fraction of a timestamp, which is absent for a whole
    second; and the text of an instant of a UTC clock. *)
Fixpoint fracDigits (w : nat) (u : Z) : list ascii :=
  match w with
  | O => []
  | S w' => if u mod 10 =? 0 then fracDigits w' (u / 10) else zpad w u
  end.

Definition fraction (nanosec : Z) : list ascii :=
  if nanosec =? 0 then [] else "."%char :: fracDigits 9 nanosec.

Definition stamp (t : Time) : list ascii :=
  zpad 4 (Year t) ++ "-"%char :: zpad 2 (Month t) ++ "-"%char :: zpad 2 (Day t)
    ++ " "%char :: zpad 2 (Hour t) ++ ":"%char :: zpad 2 (Minute t)
    ++ ":"%char :: zpad 2 (Second t) ++ fraction (Nanosecond t)
    ++ list_ascii_of_string " +0000 UTC".

(** An instant read off a UTC clock in a year of four digits. *)
Definition stampable (t : Time) : Prop :=
  valid t = true /\ Loc t = UTC /\ 0 <= Year t <= 9999.

End GoTime.

(** ** The encryption decorator (cryptor.go) *)

Definition tsFormat : string := "2006-01-02 15:04:05.999999999 -0700 MST".

(** The interfaces [libcipher.Encryptor] and [libcipher.Decryptor].  An
    encryptor draws from the randomness source it was built with, whose
    state is [R]; a decryptor has no state. *)
Record Encryptor (R : Type) : Type := {
  Encryptor_Crypt : bytes -> bytes -> R -> (bytes * option error) * R
}.
Arguments Encryptor_Crypt {R}.

Record Decryptor : Type := {
  Decryptor_Crypt : bytes -> (bytes * bytes) * option error
}.

(** What a call of the decorator runs in: the state of the wrapped store,
    the state of the randomness source, and the system clock, which gives
    the reading [clock n] to the [n]-th call of [time.Now]. *)
Record World (S R : Type) : Type := {
  backend : S;
  entropy : R;
  clock : nat -> GoTime.Time;
  ticks : nat
}.
Arguments backend {S R}.
Arguments entropy {S R}.
Arguments clock {S R}.
Arguments ticks {S R}.

Module CryptStore.

Import GoTime.

Section Decorator.

Context {Store Rand : Type}.

Record t : Type := {
  storeOps : Ops Store;
  encryptor : Encryptor Rand;
  decryptor : Decryptor
}.

Abbreviation W := (World Store Rand).

(** [time.Now().UTC()]. *)
Definition Now_UTC (w : W) : Time * W :=
  (clock w (ticks w),
   {| backend := backend w; entropy := entropy w; clock := clock w;
      ticks := S (ticks w) |}).

(** A call of a method of the wrapped store. *)
Definition call {A : Type} (f : Store -> A * Store) (w : W) : A * W :=
  let '(a, s) := f (backend w) in
  (a, {| backend := s; entropy := entropy w; clock := clock w; ticks := ticks w |}).

(** [m.encryptor.Crypt(entry, ts)]. *)
Definition seal (m : t) (entry ts : bytes) (w : W) : (bytes * option error) * W :=
  let '(r, e) := Encryptor_Crypt (encryptor m) entry ts (entropy w) in
  (r, {| backend := backend w; entropy := e; clock := clock w; ticks := ticks w |}).

Definition Put (m : t) (key : string) (entry : bytes) (w : W) : option error * W :=
  let '(now, w) := Now_UTC w in
  let ts := list_byte_of_string (Format now tsFormat) in
  let '((vault, err), w) := seal m entry ts w in
  match err with
  | Some e => (Some (Errorf_w_w (DecryptionError "failed to encrypt entry") e), w)
  | None =>
      let '(err, w) := call (Ops_Put (storeOps m) key vault) w in
      match err with
      | Some e => (Some e, w)
      | None => (None, w)
      end
  end.

Definition Create (m : t) (key : string) (w : W) : option error * W :=
  let '(err, w) := call (Ops_Create (storeOps m) key) w in
  match err with
  | Some e => (Some e, w)
  | None => (None, w)
  end.

Definition Delete (m : t) (key : string) (w : W) : option error * W :=
  let '(err, w) := call (Ops_Delete (storeOps m) key) w in
  match err with
  | Some e => (Some e, w)
  | None => (None, w)
  end.

Definition List_ (m : t) (w : W) : (list string * option error) * W :=
  let '((res, err), w) := call (Ops_List (storeOps m)) w in
  match err with
  | Some e => (([], Some e), w)
  | None => ((res, None), w)
  end.

Definition Read (m : t) (key : string) (w : W) : (bytes * option error) * W :=
  let '((vault, err), w) := call (Ops_Read (storeOps m) key) w in
  match err with
  | Some e => (([], Some e), w)
  | None =>
      let '((res, meta), err) := Decryptor_Crypt (decryptor m) vault in
      match err with
      | Some e => (([], Some e), w)
      | None =>
          let '(ts, err) := Parse tsFormat (string_of_list_byte meta) in
          match err with
          | Some e => (([], Some e), w)
          | None =>
              let '(now, w) := Now_UTC w in
              if After ts now then
                (([], Some (ValidationError "failed to validate sealing")), w)
              else ((res, None), w)
          end
      end
  end.

(** The loop of [ReadAll] from index [i] on: [vaults] is what is left of the
    slice, [res] the slice of results, as long as the whole. *)
Fixpoint ReadAll_loop (m : t) (vaults : list bytes) (i : nat) (res : list bytes)
  (w : W) : (list bytes * option error) * W :=
  match vaults with
  | [] => ((res, None), w)
  | vault :: vaults' =>
      let '((r, meta), err) := Decryptor_Crypt (decryptor m) vault in
      let res := <[i := r]> res in
      match err with
      | Some e => (([], Some e), w)
      | None =>
          let '(ts, err) := Parse tsFormat (string_of_list_byte meta) in
          match err with
          | Some e => (([], Some e), w)
          | None =>
              let '(now, w) := Now_UTC w in
              if After ts now then
                (([], Some (ValidationError "failed to validate sealing")), w)
              else ReadAll_loop m vaults' (S i) res w
          end
      end
  end.

Definition ReadAll (m : t) (key : string) (w : W)
  : (list bytes * option error) * W :=
  let '((vaults, err), w) := call (Ops_ReadAll (storeOps m) key) w in
  match err with
  | Some e => (([], Some e), w)
  | None => ReadAll_loop m vaults 0 (replicate (length vaults) []) w
  end.

(** *** What the specification says of one envelope

    Opening an envelope and checking its freshness against the clock
    reading [now]: the plaintext, or the error of the first step that
    fails. *)
Definition open_and_check (m : t) (vault : bytes) (now : Time)
  : bytes * option error :=
  let '((res, meta), err) := Decryptor_Crypt (decryptor m) vault in
  match err with
  | Some e => ([], Some e)
  | None =>
      let '(ts, err) := Parse tsFormat (string_of_list_byte meta) in
      match err with
      | Some e => ([], Some e)
      | None =>
          if After ts now then ([], Some (ValidationError "failed to validate sealing"))
          else (res, None)
      end
  end.

(** The envelopes in order, the [j]-th against the reading [clock (n + j)]:
    all the plaintexts, or nothing and the first error. *)
Fixpoint open_all (m : t) (vaults : list bytes) (clock : nat -> Time) (n : nat)
  : list bytes * option error :=
  match vaults with
  | [] => ([], None)
  | vault :: vaults' =>
      match open_and_check m vault (clock n) with
      | (_, Some e) => ([], Some e)
      | (r, None) =>
          match open_all m vaults' clock (S n) with
          | (_, Some e) => ([], Some e)
          | (rs, None) => (r :: rs, None)
          end
      end
  end.

(** An envelope that opens, to the plaintext [res], and whose timestamp
    parses, to [ts]. *)
Definition opens (m : t) (vault res : bytes) (ts : Time) : Prop :=
  exists meta,
    Decryptor_Crypt (decryptor m) vault = ((res, meta), None)
    /\ Parse tsFormat (string_of_list_byte meta) = (ts, None).

(** The hypotheses of the round trip: the opening capability inverts the
    sealing capability, and the wrapped store returns from [Read] what the
    last [Put] on the key stored. *)
Definition inverts (m : t) : Prop :=
  forall entry ad rnd vault rnd',
    Encryptor_Crypt (encryptor m) entry ad rnd = ((vault, None), rnd') ->
    Decryptor_Crypt (decryptor m) vault = ((entry, ad), None).

Definition conforming (m : t) : Prop :=
  forall key entry s s',
    Ops_Put (storeOps m) key entry s = (None, s') ->
    (Ops_Read (storeOps m) key s').1 = (entry, None).

End Decorator.

Arguments t : clear implicits.

End CryptStore.

(** ** Sample capabilities, stores and clocks *)

Module Sample.

Import GoTime.

(** A sealing capability that keeps everything in clear: the envelope is the
    length of the associated data as that many bytes 01 and a byte 00, the
    associated data, and the plaintext.  It draws no randomness. *)
Definition sealed (entry ad : bytes) : bytes :=
  repeat Byte.x01 (length ad) ++ Byte.x00 :: ad ++ entry.

Fixpoint unary (v : bytes) : option (nat * bytes) :=
  match v with
  | Byte.x00 :: rest => Some (O, rest)
  | Byte.x01 :: rest =>
      match unary rest with
      | Some (n, r) => Some (S n, r)
      | None => None
      end
  | _ => None
  end.

Definition authFailed : error :=
  ForeignError "libcipher" "message authentication failed".

Definition opened (v : bytes) : (bytes * bytes) * option error :=
  match unary v with
  | Some (n, rest) =>
      if (n <=? length rest)%nat then ((skipn n rest, firstn n rest), None)
      else (([], []), Some authFailed)
  | None => (([], []), Some authFailed)
  end.

Definition encryptor : Encryptor unit :=
  {| Encryptor_Crypt := fun entry ad r => ((sealed entry ad, None), r) |}.

Definition decryptor : Decryptor := {| Decryptor_Crypt := opened |}.

(** A sealing capability whose randomness source is exhausted. *)
Definition noEntropy : error := ForeignError "libcipher" "unexpected EOF".

Definition brokenEncryptor : Encryptor unit :=
  {| Encryptor_Crypt := fun _ _ r => (([], Some noEntropy), r) |}.

(** The decorator over the in-memory adapter. *)
Definition store : CryptStore.t (gmap string (list bytes)) unit :=
  {| CryptStore.storeOps := InMemoryOps.ops;
     CryptStore.encryptor := encryptor;
     CryptStore.decryptor := decryptor |}.

Definition brokenStore : CryptStore.t (gmap string (list bytes)) unit :=
  {| CryptStore.storeOps := InMemoryOps.ops;
     CryptStore.encryptor := brokenEncryptor;
     CryptStore.decryptor := decryptor |}.

Definition at_ (year month day hour minute second nanosecond : Z) : Time :=
  {| Year := year; Month := month; Day := day; Hour := hour; Minute := minute;
     Second := second; Nanosecond := nanosecond; Loc := UTC |}.

(** A clock that advances by a second and a half at every reading. *)
Definition clock2024 (n : nat) : Time :=
  let h := Z.of_nat n * 3 in
  at_ 2024 3 9 7 5 (Z.rem (h / 2) 60) (Z.rem h 2 * 500000000).

(** A clock in the year 10000. *)
Definition clock10000 (n : nat) : Time :=
  at_ 10000 1 1 0 0 (Z.rem (Z.of_nat n) 60) 0.

Definition world (entries : gmap string (list bytes)) (c : nat -> Time)
  : World (gmap string (list bytes)) unit :=
  {| backend := entries; entropy := tt; clock := c; ticks := 0 |}.

(** The envelope of [entry] sealed at the instant [t]. *)
Definition envelope (entry : bytes) (t : Time) : bytes :=
  sealed entry (list_byte_of_string (Format t tsFormat)).

Definition hello : bytes := list_byte_of_string "hello".

Definition bye : bytes := list_byte_of_string "bye".

(** The decorator over the PostgreSQL adapter, and a table where the key
    x has two versions, sealed at the first two readings of [clock2024]. *)
Definition dbStore : CryptStore.t dbOps.t unit :=
  {| CryptStore.storeOps := dbOps.ops;
     CryptStore.encryptor := encryptor;
     CryptStore.decryptor := decryptor |}.

Definition twoVersions : dbOps.t :=
  {| dbOps.FILES :=
       [{| dbOps.id := 1; dbOps.key := "x";
           dbOps.value := Some (envelope hello (clock2024 0)); dbOps.version := 1 |};
        {| dbOps.id := 2; dbOps.key := "x";
           dbOps.value := Some (envelope bye (clock2024 1)); dbOps.version := 2 |}];
     dbOps.serial := 3 |}.

Definition dbWorld (d : dbOps.t) (c : nat -> Time) (n : nat) : World dbOps.t unit :=
  {| backend := d; entropy := tt; clock := c; ticks := n |}.

End Sample.

(** ** The S3 adapter *)

Module S3Ops.

(** The calls the adapter makes on its [s3.Client], for the bucket it was
    built with, over the state [C] of the service as the client sees it.
    [GetObject] gives the content that [io.ReadAll] reads from the body
    with the error of that reading, and the error of the call itself;
    [ListObjectsV2] gives the pages that the paginator goes through, each
    with its keys and the error of fetching it; [As_NotFound] is
    [errors.As] with a target of type [*types.NotFound]. *)
Record Client (C : Type) : Type := {
  HeadObject : string -> C -> option error * C;
  PutObject : string -> bytes -> C -> option error * C;
  GetObject : string -> C -> ((bytes * option error) * option error) * C;
  DeleteObject : string -> C -> option error * C;
  ListObjectsV2 : C -> list (list string * option error) * C;
  As_NotFound : error -> bool
}.
Arguments HeadObject {C}.
Arguments PutObject {C}.
Arguments GetObject {C}.
Arguments DeleteObject {C}.
Arguments ListObjectsV2 {C}.
Arguments As_NotFound {C}.

Section Adapter.

Context {C : Type} (s : Client C).

Definition Create (key : string) (c : C) : option error * C :=
  let '(err, c) := HeadObject s key c in
  match err with
  | None => (Some (KeyError ("key already exists: " +:+ key)), c)
  | Some e =>
      if negb (As_NotFound s e) then
        (Some (Errorf_w_w (OpsInternalError "failed to check if key exists") e), c)
      else
        let '(err, c) := PutObject s key [] c in
        match err with
        | Some e => (Some (Errorf_w_w (OpsInternalError "failed to create key") e), c)
        | None => (None, c)
        end
  end.

Definition ReadAll (key : string) (c : C) : (list bytes * option error) * C :=
  let '(((content, readErr), err), c) := GetObject s key c in
  match err with
  | Some e =>
      if As_NotFound s e then
        (([], Some (KeyNotFoundError ("key not found: " +:+ key))), c)
      else (([], Some (Errorf_w_w (OpsInternalError "failed to read key") e)), c)
  | None =>
      match readErr with
      | Some e => (([], Some (Errorf_w_w (EntryError "failed to read content") e)), c)
      | None => (([content], None), c)
      end
  end.

Definition Read (key : string) (c : C) : (bytes * option error) * C :=
  let '((entries, err), c) := ReadAll key c in
  match err with
  | Some e => (([], Some e), c)
  | None =>
      if (length entries =? 0)%nat then
        (([], Some (EntryError ("no entries found for key: " +:+ key))), c)
      else ((List.nth (length entries - 1) entries [], None), c)
  end.

Definition Put (key : string) (entry : bytes) (c : C) : option error * C :=
  let '(err, c) := PutObject s key entry c in
  match err with
  | Some e => (Some (Errorf_w_w (OpsInternalError "failed to replace entry") e), c)
  | None => (None, c)
  end.

Definition Delete (key : string) (c : C) : option error * C :=
  let '(err, c) := DeleteObject s key c in
  match err with
  | Some e =>
      if As_NotFound s e then (Some (KeyNotFoundError ("key not found: " +:+ key)), c)
      else (Some (Errorf_w_w (OpsInternalError "failed to delete key") e), c)
  | None => (None, c)
  end.

(** The loop of [List] over the pages still to fetch, with the keys found
    so far. *)
Fixpoint List_pages (pages : list (list string * option error)) (keys : list string)
  : list string * option error :=
  match pages with
  | [] => (keys, None)
  | (contents, err) :: pages' =>
      match err with
      | Some e => ([], Some (Errorf_w_w (OpsInternalError "failed to list keys") e))
      | None => List_pages pages' (keys ++ contents)
      end
  end.

Definition List_ (c : C) : (list string * option error) * C :=
  let '(pages, c) := ListObjectsV2 s c in (List_pages pages [], c).

Definition ops : Ops C := Build_Ops C Create ReadAll Read Put Delete List_.

End Adapter.

End S3Ops.

(** ** More samples, and the calls of scenarios *)

Module Scenario.

(** The key a call of the in-memory adapter is about. *)
Definition call_key (c : InMemoryOps.call) : option string :=
  match c with
  | InMemoryOps.CCreate k => Some k
  | InMemoryOps.CReadAll k => Some k
  | InMemoryOps.CRead k => Some k
  | InMemoryOps.CPut k _ => Some k
  | InMemoryOps.CDelete k => Some k
  | InMemoryOps.CList => None
  end.

(** [Put] of the entries [vs] on the key, one after the other, on the
    PostgreSQL adapter. *)
Definition put_all (k : string) (vs : list bytes) (d : dbOps.t) : dbOps.t :=
  fold_left (fun d v => (dbOps.Put k v d).2) vs d.

(** The calls of the PostgreSQL adapter that change the table. *)
Inductive db_write : Type :=
| WCreate (k : string)
| WPut (k : string) (entry : bytes)
| WDelete (k : string).

Definition db_write_key (c : db_write) : string :=
  match c with WCreate k => k | WPut k _ => k | WDelete k => k end.

Definition db_apply (d : dbOps.t) (c : db_write) : dbOps.t :=
  match c with
  | WCreate k => (dbOps.Create k d).2
  | WPut k e => (dbOps.Put k e d).2
  | WDelete k => (dbOps.Delete k d).2
  end.

(** A bucket as a map from keys to contents, behind a client that never
    fails to reach it: [HeadObject] answers a missing key with an error
    that is a [*types.NotFound], [GetObject] with one that is not, and
    [DeleteObject] succeeds on any key. *)
Definition notFound : error := ForeignError "s3" "NotFound".

Definition noSuchKey : error := ForeignError "s3" "NoSuchKey".

Definition is_notFound (e : error) : bool :=
  match e with
  | ForeignError pkg msg => (String.eqb pkg "s3" && String.eqb msg "NotFound")%bool
  | _ => false
  end.

Definition bucket : S3Ops.Client (gmap string bytes) :=
  {| S3Ops.HeadObject := fun key c =>
       (match c !! key with Some _ => None | None => Some notFound end, c);
     S3Ops.PutObject := fun key body c => (None, <[key := body]> c);
     S3Ops.GetObject := fun key c =>
       (match c !! key with
        | Some content => ((content, None), None)
        | None => (([], None), Some noSuchKey)
        end, c);
     S3Ops.DeleteObject := fun key c => (None, delete key c);
     S3Ops.ListObjectsV2 := fun c => ([((map_to_list c).*1, None)], c);
     S3Ops.As_NotFound := is_notFound |}.

End Scenario.

(** * Facts *)

(** ** The error codes *)

(** C6.  [NewError] gives the code 1 to a [LocationError], 2 to a
    [KeyError], 3 to an [EntryError], 4 to an [OpsInternalError], 5 to a
    [KeyNotFoundError] and 0 to every other error, and [TranslateToError]
    at the code [NewError] gave, with any message, returns an error of the
    kind that went in. *)
Theorem NewError_code_roundtrip :
  (forall err,
     Code (NewError err) =
       match kind_of err with
       | KLocation => 1 | KKey => 2 | KEntry => 3
       | KOpsInternal => 4 | KKeyNotFound => 5 | KOther => 0
       end)
  /\ (forall e msg, TranslateToError (Code (NewError (LocationError e))) msg
                    = LocationError msg)
  /\ (forall e msg, TranslateToError (Code (NewError (KeyError e))) msg
                    = KeyError msg)
  /\ (forall e msg, TranslateToError (Code (NewError (EntryError e))) msg
                    = EntryError msg)
  /\ (forall e msg, TranslateToError (Code (NewError (OpsInternalError e))) msg
                    = OpsInternalError msg)
  /\ (forall e msg, TranslateToError (Code (NewError (KeyNotFoundError e))) msg
                    = KeyNotFoundError msg)
  /\ (forall err msg, kind_of (TranslateToError (Code (NewError err)) msg)
                      = kind_of err).
Proof.
  repeat split; try reflexivity; intros err; destruct err; reflexivity.
Qed.

(** C10.  An error that is none of the five kinds of the type switch gets
    the code 0 and the message "unknown error": its own message is lost. *)
Theorem NewError_unknown (err : error) :
  kind_of err = KOther ->
  NewError err = {| Code := 0; Message := "unknown error" |}.
Proof.
  destruct err; simpl; intros H; solve [reflexivity | discriminate H].
Qed.

Lemma NewError_unknown_witness :
  kind_of (Errorf_w_w (DecryptionError "failed to encrypt entry") Sample.noEntropy)
    = KOther
  /\ NewError (Errorf_w_w (DecryptionError "failed to encrypt entry") Sample.noEntropy)
     = {| Code := 0; Message := "unknown error" |}.
Proof.
  split; [reflexivity | apply NewError_unknown; reflexivity].
Defined.

Lemma NewError_decorator_errors (s : string) :
  NewError (ValidationError s) = {| Code := 0; Message := "unknown error" |}
  /\ NewError (DecryptionError s) = {| Code := 0; Message := "unknown error" |}
  /\ NewError (TimestampError s) = {| Code := 0; Message := "unknown error" |}.
Proof. repeat split. Qed.

(** ** The in-memory adapter *)

Section InMemoryFacts.

Import InMemoryOps.

Implicit Types (ops : gmap string (list bytes)) (key : string).

Lemma Create_fresh ops key :
  ops !! key = None -> Create key ops = (None, <[key := []]> ops).
Proof. intros H. unfold Create. by rewrite H. Qed.

Lemma Create_present ops key data :
  ops !! key = Some data ->
  Create key ops = (Some (KeyError ("key " +:+ key +:+ " already exists")), ops).
Proof. intros H. unfold Create. by rewrite H. Qed.

Lemma Put_present ops key entry data :
  ops !! key = Some data -> Put key entry ops = (None, <[key := [entry]]> ops).
Proof. intros H. unfold Put. by rewrite H. Qed.

Lemma Put_ok ops key entry ops' :
  Put key entry ops = (None, ops') -> ops' = <[key := [entry]]> ops.
Proof.
  unfold Put. destruct (ops !! key); intros H; by inversion H.
Qed.

Lemma ReadAll_present ops key data :
  ops !! key = Some data -> ReadAll key ops = ((data, None), ops).
Proof. intros H. unfold ReadAll. by rewrite H. Qed.

Lemma Read_after_Put ops key entry ops' :
  Put key entry ops = (None, ops') -> (Read key ops').1 = (entry, None).
Proof.
  intros H. apply Put_ok in H. subst ops'.
  unfold Read. by rewrite lookup_insert_eq.
Qed.

(** The second property of the specification's list, on this adapter. *)
Lemma Create_then_read ops key :
  ops !! key = None ->
  let ops' := (Create key ops).2 in
  (Create key ops).1 = None
  /\ (ReadAll key ops').1 = ([], None)
  /\ (Read key ops').1 = ([], Some (EntryError ("no entries found for key " +:+ key))).
Proof.
  intros H. rewrite (Create_fresh _ _ H). simpl.
  unfold ReadAll, Read. rewrite !lookup_insert_eq. done.
Qed.

Lemma short_histories_step ops c :
  short_histories ops -> short_histories (step ops c).
Proof.
  intros Hinv. destruct c as [k|k|k|k e|k|]; simpl;
    unfold Create, ReadAll, Read, Put, Delete, List_;
    try (destruct (ops !! k) as [d|] eqn:Hk; simpl; try assumption).
  - intros key data. rewrite lookup_insert. case_decide.
    + intros [= <-]. simpl. lia.
    + apply Hinv.
  - destruct (length d =? 0)%nat; assumption.
  - intros key data. rewrite lookup_insert. case_decide.
    + intros [= <-]. simpl. lia.
    + apply Hinv.
  - intros key data. rewrite lookup_delete. case_decide; [done | apply Hinv].
  - assumption.
Qed.

Lemma short_histories_fold cs : forall ops,
  short_histories ops -> short_histories (fold_left step cs ops).
Proof.
  induction cs as [|c cs IH]; intros ops H; simpl; [assumption |].
  apply IH, short_histories_step, H.
Qed.

Lemma short_histories_run cs : short_histories (run cs).
Proof.
  apply short_histories_fold. intros key data. unfold NewInMemoryOps.
  by rewrite lookup_empty.
Qed.

End InMemoryFacts.

(** C8.  On the in-memory adapter, creating a key that is not there and
    creating it again: the first call succeeds and leaves the key with an
    empty history, the second fails with a [KeyError] and returns the very
    state it was given. *)
Theorem InMemoryOps_Create_twice (ops : gmap string (list bytes)) (key : string) :
  ops !! key = None ->
  exists ops1 msg,
    InMemoryOps.Create key ops = (None, ops1)
    /\ ops1 !! key = Some []
    /\ InMemoryOps.Create key ops1 = (Some (KeyError msg), ops1).
Proof.
  intros H. exists (<[key := []]> ops). eexists. split; [|split].
  - by apply Create_fresh.
  - apply lookup_insert_eq.
  - eapply Create_present, lookup_insert_eq.
Qed.

Lemma InMemoryOps_Create_twice_witness :
  (InMemoryOps.NewInMemoryOps !! "k" : option (list bytes)) = None
  /\ exists ops1 msg,
       InMemoryOps.Create "k" InMemoryOps.NewInMemoryOps = (None, ops1)
       /\ ops1 !! "k" = Some []
       /\ InMemoryOps.Create "k" ops1 = (Some (KeyError msg), ops1).
Proof.
  split; [reflexivity | apply InMemoryOps_Create_twice; reflexivity].
Defined.

(** C9.  In every state the in-memory adapter can reach from
    [NewInMemoryOps], a key's history has at most one entry: it is what
    [ReadAll] returns, a [Put] on the key succeeds and leaves the new entry
    alone in the history, whatever was there, and [Create] on a key that is
    not there leaves it with the empty history. *)
Theorem InMemoryOps_single_slot
  (cs : list InMemoryOps.call) (key : string) (data : list bytes) :
  InMemoryOps.run cs !! key = Some data ->
  (length data <= 1)%nat
  /\ (InMemoryOps.ReadAll key (InMemoryOps.run cs)).1 = (data, None)
  /\ (forall entry,
        InMemoryOps.Put key entry (InMemoryOps.run cs)
          = (None, <[key := [entry]]> (InMemoryOps.run cs))
        /\ (InMemoryOps.ReadAll key (<[key := [entry]]> (InMemoryOps.run cs))).1
           = ([entry], None))
  /\ (forall key',
        InMemoryOps.run cs !! key' = None ->
        exists ops',
          InMemoryOps.Create key' (InMemoryOps.run cs) = (None, ops')
          /\ ops' !! key' = Some []).
Proof.
  intros H. split; [|split; [|split]].
  - exact (short_histories_run cs key data H).
  - by rewrite (ReadAll_present _ _ _ H).
  - intros entry. split.
    + exact (Put_present _ _ entry _ H).
    + unfold InMemoryOps.ReadAll. by rewrite lookup_insert_eq.
  - intros key' H'. eexists. split; [by apply Create_fresh |].
    apply lookup_insert_eq.
Qed.

Lemma InMemoryOps_single_slot_witness :
  let cs := [InMemoryOps.CCreate "k";
             InMemoryOps.CPut "k" [Byte.x01];
             InMemoryOps.CPut "k" [Byte.x02]] in
  InMemoryOps.run cs !! "k" = Some [[Byte.x02]]
  /\ (length [[Byte.x02]] <= 1)%nat.
Proof.
  intros cs.
  assert (H : InMemoryOps.run cs !! "k" = Some [[Byte.x02]]) by reflexivity.
  split; [exact H | exact (proj1 (InMemoryOps_single_slot cs "k" _ H))].
Defined.

(** ** The PostgreSQL adapter *)

Section dbFacts.

Import dbOps.

Lemma where_key_app k rows r s s' :
  where_key k {| FILES := rows ++ [r]; serial := s' |}
  = where_key k {| FILES := rows; serial := s |}
    ++ (if String.eqb (key r) k then [r] else []).
Proof.
  unfold where_key. simpl. rewrite List.filter_app. simpl.
  by destruct (String.eqb (key r) k).
Qed.

(** On a key without rows [Create] inserts the row of version 0 with a NULL
    value; [ReadAll] then returns that row's
    value as an entry and [Read] returns it without an error. *)
Lemma Create_then_read_db (k : string) (d : t) :
  where_key k d = [] ->
  let d' := (Create k d).2 in
  (Create k d).1 = None
  /\ (ReadAll k d').1 = ([[]], None)
  /\ (Read k d').1 = ([], None).
Proof.
  intros H. destruct d as [rows s].
  unfold Create, select_key. rewrite H.
  cbn [other_than_ErrNoRows is_ErrNoRows ErrNoRows String.eqb Ascii.eqb Bool.eqb
       negb insert_row fst snd FILES serial].
  unfold ReadAll, Read, select_values, select_last_value.
  rewrite (where_key_app _ _ _ s), H. cbn [key]. rewrite String.eqb_refl. done.
Qed.

End dbFacts.

(** C2, on the PostgreSQL adapter.  The specification asks that after
    [Create] of a new key [ReadAll] returns the empty sequence and [Read]
    fails with an [EntryError], as the in-memory adapter does
    ([Create_then_read]).  Here, on an empty table, [ReadAll] returns one
    entry, the NULL value of the row that [Create] inserted, and [Read]
    returns that value and no error. *)
Theorem dbOps_Create_then_read :
  let d := (dbOps.Create "k" dbOps.empty).2 in
  (dbOps.Create "k" dbOps.empty).1 = None
  /\ (dbOps.ReadAll "k" d).1 = ([[]], None)
  /\ length (dbOps.ReadAll "k" d).1.1 = 1%nat
  /\ (dbOps.Read "k" d).1 = ([], None).
Proof. repeat split. Qed.

(** ** The encryption decorator *)

Section DecoratorFacts.

Import GoTime CryptStore.

Context {Store Rand : Type} (m : CryptStore.t Store Rand).

Implicit Types (w : World Store Rand) (key : string) (vault : bytes).

Lemma take_insert_snoc (res : list bytes) (i : nat) (r : bytes) :
  (i < length res)%nat -> take (S i) (<[i := r]> res) = take i res ++ [r].
Proof.
  intros Hi. rewrite (take_S_r _ _ r).
  - by rewrite take_insert_ge by lia.
  - by apply list_lookup_insert_eq.
Qed.

(** The loop of [ReadAll] computes [open_all]: the slots before [i] are
    kept and the others are filled with the plaintexts, in order. *)
Lemma ReadAll_loop_open_all (vaults : list bytes) : forall i res w,
  length res = (i + length vaults)%nat ->
  (ReadAll_loop m vaults i res w).1
  = match open_all m vaults (clock w) (ticks w) with
    | (rs, None) => (take i res ++ rs, None)
    | (_, Some e) => ([], Some e)
    end.
Proof.
  induction vaults as [|vault vaults IH]; intros i res w Hlen; simpl in *.
  - rewrite app_nil_r, take_ge by lia. reflexivity.
  - unfold open_and_check.
    destruct (Decryptor_Crypt (decryptor m) vault) as [[r meta] [e|]]; [reflexivity|].
    destruct (Parse tsFormat (string_of_list_byte meta)) as [ts [e|]]; [reflexivity|].
    simpl. destruct (After ts (clock w (ticks w))); [reflexivity|].
    rewrite IH by (rewrite length_insert; simpl; lia). simpl.
    destruct (open_all m vaults (clock w) (S (ticks w))) as [rs [e|]]; [reflexivity|].
    rewrite take_insert_snoc by lia. by rewrite <- app_assoc.
Qed.

(** No partial result: with an error comes the nil slice. *)
Lemma open_all_error (vaults : list bytes) c n rs e :
  open_all m vaults c n = (rs, Some e) -> rs = [].
Proof.
  destruct vaults as [|vault vaults]; simpl; [discriminate|].
  destruct (open_and_check m vault (c n)) as [r [e1|]].
  - by intros [= <- _].
  - destruct (open_all m vaults c (S n)) as [rs' [e2|]]; [by intros [= <- _] | discriminate].
Qed.

Lemma ReadAll_open_all key w vaults w1 :
  call (Ops_ReadAll (storeOps m) key) w = ((vaults, None), w1) ->
  (CryptStore.ReadAll m key w).1 = open_all m vaults (clock w) (ticks w).
Proof.
  intros H. unfold CryptStore.ReadAll. rewrite H.
  assert (clock w1 = clock w /\ ticks w1 = ticks w) as [Hc Ht].
  { unfold call in H. destruct (Ops_ReadAll (storeOps m) key (backend w)).
    inversion H. by subst. }
  rewrite ReadAll_loop_open_all by (rewrite length_replicate; lia).
  rewrite Hc, Ht. simpl.
  destruct (open_all _ _ _ _) as [rs [e|]] eqn:Ho; [|reflexivity].
  by rewrite (open_all_error _ _ _ _ _ Ho).
Qed.

Lemma Read_open_and_check key w vault w1 :
  call (Ops_Read (storeOps m) key) w = ((vault, None), w1) ->
  (CryptStore.Read m key w).1 = open_and_check m vault (clock w (ticks w)).
Proof.
  intros H. unfold CryptStore.Read. rewrite H.
  assert (clock w1 = clock w /\ ticks w1 = ticks w) as [Hc Ht].
  { unfold call in H. destruct (Ops_Read (storeOps m) key (backend w)).
    inversion H. by subst. }
  unfold open_and_check.
  destruct (Decryptor_Crypt (decryptor m) vault) as [[r meta] [e|]]; [reflexivity|].
  destruct (Parse tsFormat (string_of_list_byte meta)) as [ts [e|]]; [reflexivity|].
  simpl. rewrite Hc, Ht. by destruct (After ts (clock w (ticks w))).
Qed.

(** An error of the wrapped store comes back as it is. *)
Lemma Read_backend_error key w vault e w1 :
  call (Ops_Read (storeOps m) key) w = ((vault, Some e), w1) ->
  CryptStore.Read m key w = (([], Some e), w1).
Proof. intros H. unfold CryptStore.Read. by rewrite H. Qed.

(** So does an error of the opening capability: [Read] does not wrap it. *)
Lemma Read_open_error key w vault w1 res meta e :
  call (Ops_Read (storeOps m) key) w = ((vault, None), w1) ->
  Decryptor_Crypt (decryptor m) vault = ((res, meta), Some e) ->
  CryptStore.Read m key w = (([], Some e), w1).
Proof. intros H Hd. unfold CryptStore.Read. by rewrite H, Hd. Qed.

(** A failure of the sealing capability is wrapped in a [DecryptionError],
    next to its cause, and nothing is forwarded to the wrapped store. *)
Lemma Put_seal_error key entry w e rnd :
  Encryptor_Crypt (encryptor m) entry
    (list_byte_of_string (Format (clock w (ticks w)) tsFormat)) (entropy w)
  = (([], Some e), rnd) ->
  (CryptStore.Put m key entry w).1
  = Some (wrapErrors
            ("libstore/ops: decryption error: failed to encrypt entry: " +:+ Error e)
            [DecryptionError "failed to encrypt entry"; e])
  /\ backend (CryptStore.Put m key entry w).2 = backend w.
Proof.
  intros H. unfold CryptStore.Put, seal. simpl. rewrite H. done.
Qed.

(** The freshness check of one envelope that opens and whose timestamp
    parses: rejected exactly when the timestamp is after the reading. *)
Lemma open_and_check_fresh vault now res meta ts :
  Decryptor_Crypt (decryptor m) vault = ((res, meta), None) ->
  Parse tsFormat (string_of_list_byte meta) = (ts, None) ->
  open_and_check m vault now
  = if After ts now then ([], Some (ValidationError "failed to validate sealing"))
    else (res, None).
Proof. intros Hd Hp. unfold open_and_check. by rewrite Hd, Hp. Qed.

End DecoratorFacts.

(** Two names of one clock reading: [H] states the goal at the reading
    [S n + i], the goal wants it at [n + S i], or the other way round. *)
Ltac same_reading H :=
  match goal with
  | |- context [?c (?a + ?b)%nat] =>
      match type of H with
      | context [c ?x] => replace (a + b)%nat with x by lia; exact H
      end
  end.

Section OpenAllFacts.

Import GoTime CryptStore.

Context {Store Rand : Type} (m : CryptStore.t Store Rand).

Implicit Types (vaults : list bytes) (c : nat -> Time).

Lemma opens_check vault res ts now :
  opens m vault res ts ->
  open_and_check m vault now
  = if After ts now then ([], Some (ValidationError "failed to validate sealing"))
    else (res, None).
Proof. intros (meta & Hd & Hp). by apply (open_and_check_fresh m _ _ _ meta). Qed.

Lemma opens_inj vault res ts res' ts' :
  opens m vault res ts -> opens m vault res' ts' -> res = res' /\ ts = ts'.
Proof.
  intros (meta & Hd & Hp) (meta' & Hd' & Hp'). rewrite Hd in Hd'.
  injection Hd' as <- <-. rewrite Hp in Hp'. by injection Hp' as <-.
Qed.

Lemma open_all_ok vaults c : forall n,
  (forall i vault, vaults !! i = Some vault ->
     (open_and_check m vault (c (n + i)%nat)).2 = None) ->
  exists rs,
    open_all m vaults c n = (rs, None)
    /\ length rs = length vaults
    /\ forall i vault, vaults !! i = Some vault ->
         rs !! i = Some (open_and_check m vault (c (n + i)%nat)).1.
Proof.
  induction vaults as [|vault vaults IH]; intros n H; simpl.
  - exists []. repeat split. intros i vault Hi. by rewrite lookup_nil in Hi.
  - pose proof (H O vault eq_refl) as H0. rewrite Nat.add_0_r in H0.
    destruct (open_and_check m vault (c n)) as [r o] eqn:Hr. simpl in H0. subst o.
    destruct (IH (S n)) as (rs & Hrs & Hlen & Hnth).
    { intros i v Hi. same_reading (H (S i) v Hi). }
    rewrite Hrs. exists (r :: rs). split; [reflexivity|]. split; [simpl; lia|].
    intros [|i] v Hi.
    + injection Hi as <-. by rewrite Nat.add_0_r, Hr.
    + replace (n + S i)%nat with (S n + i)%nat by lia. exact (Hnth i v Hi).
Qed.

Lemma open_all_first_error vaults c : forall n i vault e,
  vaults !! i = Some vault ->
  (open_and_check m vault (c (n + i)%nat)).2 = Some e ->
  (forall j vault', (j < i)%nat -> vaults !! j = Some vault' ->
     (open_and_check m vault' (c (n + j)%nat)).2 = None) ->
  open_all m vaults c n = ([], Some e).
Proof.
  induction vaults as [|v vaults IH]; intros n i vault e Hi He Hbefore.
  - by rewrite lookup_nil in Hi.
  - simpl. destruct i as [|i]; simpl in Hi.
    + injection Hi as ->. rewrite Nat.add_0_r in He.
      destruct (open_and_check m vault (c n)) as [r o]. simpl in He. by subst o.
    + pose proof (Hbefore O v (Nat.lt_0_succ i) eq_refl) as H0.
      rewrite Nat.add_0_r in H0.
      destruct (open_and_check m v (c n)) as [r o]. simpl in H0. subst o.
      rewrite (IH (S n) i vault e Hi); [reflexivity | |].
      * same_reading He.
      * intros j v' Hj Hv'.
        assert (Hj' : (S j < S i)%nat) by lia.
        same_reading (Hbefore (S j) v' Hj' Hv').
Qed.

(** When every envelope opens and parses, the only error is that of the
    freshness check, at the envelope whose timestamp is after its reading. *)
Lemma open_all_validation vaults c : forall n,
  (forall vault, vault ∈ vaults -> exists res ts, opens m vault res ts) ->
  (exists s, (open_all m vaults c n).2 = Some (ValidationError s))
  <-> (exists i vault res ts,
         vaults !! i = Some vault /\ opens m vault res ts
         /\ After ts (c (n + i)%nat) = true).
Proof.
  induction vaults as [|v vaults IH]; intros n Hall; simpl.
  - split; [intros [s Hs]; discriminate|].
    intros (i & vault & _ & _ & Hi & _). by rewrite lookup_nil in Hi.
  - destruct (Hall v) as (res0 & ts0 & Ho); [by left|].
    rewrite (opens_check _ _ _ (c n) Ho).
    destruct (After ts0 (c n)) eqn:Ha.
    + split; [|by eexists].
      intros _. exists O, v, res0, ts0. by rewrite Nat.add_0_r.
    + specialize (IH (S n)).
      assert (Hall' : forall vault, vault ∈ vaults -> exists res ts, opens m vault res ts)
        by (intros vault Hin; apply Hall; by right).
      specialize (IH Hall'). split.
      * intros [s Hs].
        destruct (open_all m vaults c (S n)) as [rs [e|]]; [|discriminate].
        simpl in Hs. destruct (proj1 IH) as (i & vault & res & ts & Hi & Hop & Haf).
        { by exists s. }
        exists (S i), vault, res, ts. repeat split; try assumption.
        same_reading Haf.
      * intros (i & vault & res & ts & Hi & Hop & Haf). destruct i as [|i]; simpl in Hi.
        { injection Hi as <-. destruct (opens_inj _ _ _ _ _ Ho Hop) as [_ <-].
          rewrite Nat.add_0_r in Haf. congruence. }
        destruct (proj2 IH) as [s Hs].
        { exists i, vault, res, ts. repeat split; try assumption.
          same_reading Haf. }
        exists s. destruct (open_all m vaults c (S n)) as [rs [e|]]; [|discriminate].
        exact Hs.
Qed.

End OpenAllFacts.

Lemma After_spec (t u : GoTime.Time) :
  GoTime.After t u = true
  <-> (GoTime.sec u < GoTime.sec t
       \/ (GoTime.sec t = GoTime.sec u /\ GoTime.Nanosecond u < GoTime.Nanosecond t)).
Proof.
  unfold GoTime.After. rewrite orb_true_iff, andb_true_iff.
  rewrite !Z.ltb_lt, Z.eqb_eq. reflexivity.
Qed.

Lemma After_irrefl (t : GoTime.Time) : GoTime.After t t = false.
Proof.
  destruct (GoTime.After t t) eqn:H; [|reflexivity].
  apply After_spec in H. lia.
Qed.

Section OpenAllFailure.

Import GoTime CryptStore.

Context {Store Rand : Type} (m : CryptStore.t Store Rand).

(** An error of [open_all] is the error of an envelope before which every
    envelope passed. *)
Lemma open_all_failed (vaults : list bytes) (c : nat -> Time) : forall n rs e,
  open_all m vaults c n = (rs, Some e) ->
  exists i vault,
    vaults !! i = Some vault
    /\ (open_and_check m vault (c (n + i)%nat)).2 = Some e
    /\ forall j vault', (j < i)%nat -> vaults !! j = Some vault' ->
         (open_and_check m vault' (c (n + j)%nat)).2 = None.
Proof.
  induction vaults as [|v vaults IH]; intros n rs e H; simpl in H; [discriminate|].
  destruct (open_and_check m v (c n)) as [r [e1|]] eqn:Hv.
  - injection H as _ <-. exists O, v. split; [reflexivity|]. split.
    + by rewrite Nat.add_0_r, Hv.
    + intros j v' Hj. lia.
  - destruct (open_all m vaults c (S n)) as [rs' [e2|]] eqn:Hrest; [|discriminate].
    injection H as _ <-.
    destruct (IH (S n) rs' e2 Hrest) as (i & vault & Hi & He & Hbefore).
    exists (S i), vault. split; [exact Hi|]. split; [same_reading He|].
    intros [|j] v' Hj Hv'.
    + injection Hv' as <-. by rewrite Nat.add_0_r, Hv.
    + assert (Hj' : (j < i)%nat) by lia. same_reading (Hbefore j v' Hj' Hv').
Qed.

End OpenAllFailure.

(** C5.  [ReadAll] of the decorator, on the envelopes the wrapped [ReadAll]
    returned, the [i]-th checked against the [i]-th reading of the clock
    from the call on: when every envelope opens, parses and is fresh, the
    result has their number of elements and the [i]-th is the plaintext of
    the [i]-th envelope; when one fails and all before it pass, the result
    is the nil slice and that envelope's error; and an error returned is
    always of that form. *)
Theorem CryptStore_ReadAll_in_order {Store Rand : Type}
  (m : CryptStore.t Store Rand) (key : string) (w w1 : World Store Rand)
  (vaults : list bytes) :
  CryptStore.call (Ops_ReadAll (CryptStore.storeOps m) key) w = ((vaults, None), w1) ->
  let outcome (i : nat) (vault : bytes) :=
    CryptStore.open_and_check m vault (clock w (ticks w + i)%nat) in
  ((forall i vault, vaults !! i = Some vault -> (outcome i vault).2 = None) ->
   exists rs,
     (CryptStore.ReadAll m key w).1 = (rs, None)
     /\ length rs = length vaults
     /\ forall i vault, vaults !! i = Some vault -> rs !! i = Some (outcome i vault).1)
  /\ (forall i vault e,
        vaults !! i = Some vault ->
        (outcome i vault).2 = Some e ->
        (forall j vault', (j < i)%nat -> vaults !! j = Some vault' ->
           (outcome j vault').2 = None) ->
        (CryptStore.ReadAll m key w).1 = ([], Some e))
  /\ (forall rs e,
        (CryptStore.ReadAll m key w).1 = (rs, Some e) ->
        rs = []
        /\ exists i vault,
             vaults !! i = Some vault
             /\ (outcome i vault).2 = Some e
             /\ forall j vault', (j < i)%nat -> vaults !! j = Some vault' ->
                  (outcome j vault').2 = None).
Proof.
  intros H outcome. rewrite (ReadAll_open_all m key w vaults w1 H).
  split; [|split].
  - intros Hok. exact (open_all_ok m vaults (clock w) (ticks w) Hok).
  - intros i vault e Hi He Hbefore.
    exact (open_all_first_error m vaults (clock w) (ticks w) i vault e Hi He Hbefore).
  - intros rs e He. split.
    + exact (open_all_error m vaults _ _ rs e He).
    + exact (open_all_failed m vaults (clock w) (ticks w) rs e He).
Qed.

Lemma CryptStore_ReadAll_in_order_witness :
  let w := Sample.dbWorld Sample.twoVersions Sample.clock2024 2 in
  CryptStore.call (Ops_ReadAll (CryptStore.storeOps Sample.dbStore) "x") w
    = (([Sample.envelope Sample.hello (Sample.clock2024 0);
         Sample.envelope Sample.bye (Sample.clock2024 1)], None), w)
  /\ (CryptStore.ReadAll Sample.dbStore "x" w).1 = ([Sample.hello; Sample.bye], None).
Proof.
  intros w.
  assert (H : CryptStore.call (Ops_ReadAll (CryptStore.storeOps Sample.dbStore) "x") w
              = (([Sample.envelope Sample.hello (Sample.clock2024 0);
                   Sample.envelope Sample.bye (Sample.clock2024 1)], None), w))
    by (vm_compute; reflexivity).
  split; [exact H|].
  destruct (proj1 (CryptStore_ReadAll_in_order Sample.dbStore "x" w w _ H))
    as (rs & Hrs & Hlen & Hnth).
  - intros [|[|i]] vault Hi; [injection Hi as <- ..|discriminate Hi];
      vm_compute; reflexivity.
  - rewrite Hrs. f_equal.
    destruct rs as [|r0 [|r1 [|r2 rs]]]; try discriminate Hlen.
    pose proof (Hnth 0%nat _ eq_refl) as H0. pose proof (Hnth 1%nat _ eq_refl) as H1.
    vm_compute in H0, H1. injection H0 as ->. injection H1 as ->.
    vm_compute. reflexivity.
Defined.

(** C1.  For an envelope that the wrapped [Read] returned, that opens and
    whose timestamp parses, [Read] fails with a [ValidationError] exactly
    when the timestamp is after the reading of the clock taken for it, that
    is, later in seconds, or in nanoseconds within the same second; when it
    is not after (equal or earlier), the plaintext is returned.  [ReadAll]
    makes the same check on every envelope: when all of them open and
    parse, it fails with a [ValidationError] exactly when the timestamp of
    one of them is after the reading taken for it. *)
Theorem CryptStore_freshness_check {Store Rand : Type}
  (m : CryptStore.t Store Rand) (key : string) (w w1 : World Store Rand)
  (vault res : bytes) (ts : GoTime.Time) :
  CryptStore.call (Ops_Read (CryptStore.storeOps m) key) w = ((vault, None), w1) ->
  CryptStore.opens m vault res ts ->
  let now := clock w (ticks w) in
  ((exists s, (CryptStore.Read m key w).1.2 = Some (ValidationError s))
   <-> GoTime.After ts now = true)
  /\ (GoTime.After ts now = true
      <-> (GoTime.sec now < GoTime.sec ts
           \/ (GoTime.sec ts = GoTime.sec now
               /\ GoTime.Nanosecond now < GoTime.Nanosecond ts)))
  /\ (GoTime.After ts now = false -> (CryptStore.Read m key w).1 = (res, None))
  /\ (forall vaults w2,
        CryptStore.call (Ops_ReadAll (CryptStore.storeOps m) key) w
          = ((vaults, None), w2) ->
        (forall v, v ∈ vaults -> exists res' ts', CryptStore.opens m v res' ts') ->
        ((exists s, (CryptStore.ReadAll m key w).1.2 = Some (ValidationError s))
         <-> (exists i v res' ts',
                vaults !! i = Some v
                /\ CryptStore.opens m v res' ts'
                /\ GoTime.After ts' (clock w (ticks w + i)%nat) = true))).
Proof.
  intros H Ho now. subst now.
  rewrite (Read_open_and_check m key w vault w1 H).
  rewrite (opens_check m vault res ts _ Ho).
  split; [|split; [|split]].
  - destruct (GoTime.After ts _); simpl; split; try done.
    + by eexists.
    + intros [s Hs]. discriminate Hs.
  - apply After_spec.
  - by intros ->.
  - intros vaults w2 Hall Hopens.
    rewrite (ReadAll_open_all m key w vaults w2 Hall).
    exact (open_all_validation m vaults (clock w) (ticks w) Hopens).
Qed.

Lemma CryptStore_freshness_check_witness :
  let w := Sample.dbWorld Sample.twoVersions Sample.clock2024 0 in
  let vault := Sample.envelope Sample.bye (Sample.clock2024 1) in
  CryptStore.call (Ops_Read (CryptStore.storeOps Sample.dbStore) "x") w
    = ((vault, None), w)
  /\ CryptStore.opens Sample.dbStore vault Sample.bye (Sample.clock2024 1)
  /\ GoTime.After (Sample.clock2024 1) (Sample.clock2024 0) = true
  /\ exists s, (CryptStore.Read Sample.dbStore "x" w).1.2 = Some (ValidationError s).
Proof.
  intros w vault.
  assert (H : CryptStore.call (Ops_Read (CryptStore.storeOps Sample.dbStore) "x") w
              = ((vault, None), w)) by (vm_compute; reflexivity).
  assert (Ho : CryptStore.opens Sample.dbStore vault Sample.bye (Sample.clock2024 1)).
  { exists (list_byte_of_string (GoTime.Format (Sample.clock2024 1) tsFormat)).
    split; vm_compute; reflexivity. }
  assert (Ha : GoTime.After (Sample.clock2024 1) (Sample.clock2024 0) = true)
    by (vm_compute; reflexivity).
  repeat split; try assumption.
  exact (proj2 (proj1 (CryptStore_freshness_check Sample.dbStore "x" w w vault
                         Sample.bye (Sample.clock2024 1) H Ho)) Ha).
Defined.

(** C3, at the opening capability.  The specification asks that every
    failure of a capability is reported as a [DecryptionError].  Here the
    stored envelope fails to open, and the decorator's [Read] and [ReadAll]
    return the capability's error as it is, which neither is nor wraps a
    [DecryptionError], whereas a failure of the sealing capability comes
    out of [Put] wrapped in one. *)
Theorem CryptStore_open_failure_not_wrapped :
  let w := Sample.world {[ "k" := [[Byte.x02]] ]} Sample.clock2024 in
  Sample.opened [Byte.x02] = (([], []), Some Sample.authFailed)
  /\ (CryptStore.Read Sample.store "k" w).1 = ([], Some Sample.authFailed)
  /\ (CryptStore.ReadAll Sample.store "k" w).1 = ([], Some Sample.authFailed)
  /\ As_DecryptionError Sample.authFailed = false
  /\ (exists e,
        (CryptStore.Put Sample.brokenStore "k" Sample.hello w).1 = Some e
        /\ As_DecryptionError e = true).
Proof.
  intros w. repeat split; try (vm_compute; reflexivity).
  eexists. split; vm_compute; reflexivity.
Qed.

(** ** The timestamp layout *)

Ltac zbool :=
  rewrite ?orb_false_iff, ?Z.ltb_ge, ?Z.leb_gt; lia.

Section TimeFacts.

Import GoTime.

Lemma N_of_digit d : 0 <= d <= 9 -> N_of_ascii (digit d) = (48 + Z.to_N d)%N.
Proof. intros H. unfold digit. apply N_ascii_embedding. lia. Qed.

Lemma is_digit_digit d : 0 <= d <= 9 -> is_digit (digit d) = true.
Proof.
  intros H. unfold is_digit. rewrite (N_of_digit d H).
  apply andb_true_intro. split; apply N.leb_le; lia.
Qed.

Lemma digit_val_digit d : 0 <= d <= 9 -> digit_val (digit d) = d.
Proof. intros H. unfold digit_val. rewrite (N_of_digit d H). lia. Qed.

Lemma digit_eqb d c :
  0 <= d <= 9 -> Ascii.eqb (digit d) c = (N_of_ascii c =? 48 + Z.to_N d)%N.
Proof.
  intros H. destruct (Ascii.eqb_spec (digit d) c) as [<-|Hne].
  - rewrite (N_of_digit d H). symmetry. apply N.eqb_refl.
  - symmetry. apply N.eqb_neq. intros Heq. apply Hne.
    rewrite <- (ascii_N_embedding c), Heq. reflexivity.
Qed.

Lemma mod10_range u : 0 <= u mod 10 <= 9.
Proof. pose proof (Z.mod_pos_bound u 10). lia. Qed.

Lemma pow10_succ (w : nat) : 10 ^ Z.of_nat (S w) = 10 * 10 ^ Z.of_nat w.
Proof. rewrite Nat2Z.inj_succ, Z.pow_succ_r by lia. reflexivity. Qed.

Lemma pow10_pos (w : nat) : 0 < 10 ^ Z.of_nat w.
Proof. apply Z.pow_pos_nonneg; lia. Qed.

Lemma div10_lt (w : nat) u : 0 <= u < 10 ^ Z.of_nat (S w) -> 0 <= u / 10 < 10 ^ Z.of_nat w.
Proof.
  rewrite pow10_succ. intros H. split.
  - apply Z.div_pos; lia.
  - apply Z.div_lt_upper_bound; lia.
Qed.

Lemma length_zpad w : forall u, length (zpad w u) = w.
Proof.
  induction w as [|w IH]; intros u; simpl; [reflexivity|].
  rewrite length_app, IH. simpl. lia.
Qed.

Lemma zpad_digits w : forall u, Forall (fun c => is_digit c = true) (zpad w u).
Proof.
  induction w as [|w IH]; intros u; simpl; [constructor|].
  apply Forall_app. split; [apply IH|].
  constructor; [apply is_digit_digit, mod10_range | constructor].
Qed.

Lemma zpad_head w u : exists d rest, 0 <= d <= 9 /\ zpad (S w) u = digit d :: rest.
Proof.
  revert u. induction w as [|w IH]; intros u.
  - exists (u mod 10), []. split; [apply mod10_range | reflexivity].
  - destruct (IH (u / 10)) as (d & rest & Hd & Heq).
    exists d, (rest ++ [digit (u mod 10)]). split; [exact Hd|].
    change (zpad (S (S w)) u) with (zpad (S w) (u / 10) ++ [digit (u mod 10)]).
    by rewrite Heq.
Qed.

Lemma leadingInt_from_zpad w : forall u x rest,
  0 <= u < 10 ^ Z.of_nat w -> 0 <= x ->
  x * 10 ^ Z.of_nat w + u < 10 ^ 18 ->
  leadingInt_from x (zpad w u ++ rest) = leadingInt_from (x * 10 ^ Z.of_nat w + u) rest.
Proof.
  induction w as [|w IH]; intros u x rest Hu Hx Hb.
  - simpl in *. f_equal. lia.
  - change (zpad (S w) u) with (zpad w (u / 10) ++ [digit (u mod 10)]).
    rewrite <- app_assoc. simpl app.
    pose proof (div10_lt w u Hu) as Hdiv. pose proof (mod10_range u) as Hm.
    pose proof (pow10_pos w) as Hp. rewrite pow10_succ in Hb, Hu.
    assert (Hu10 : u = 10 * (u / 10) + u mod 10) by (apply Z.div_mod; lia).
    rewrite IH by (try assumption; nia).
    cbn [leadingInt_from]. rewrite is_digit_digit, digit_val_digit by assumption.
    cbn [negb].
    assert (H1 : (2 ^ 63 / 10 <? x * 10 ^ Z.of_nat w + u / 10) = false).
    { apply Z.ltb_ge. change (2 ^ 63 / 10) with 922337203685477580.
      change (10 ^ 18) with 1000000000000000000 in Hb. nia. }
    rewrite H1.
    assert (H2 : (2 ^ 63 <? (x * 10 ^ Z.of_nat w + u / 10) * 10 + u mod 10) = false).
    { apply Z.ltb_ge. change (2 ^ 63) with 9223372036854775808.
      change (10 ^ 18) with 1000000000000000000 in Hb. nia. }
    rewrite H2. f_equal. rewrite pow10_succ. lia.
Qed.

Lemma atoi_digits d rest :
  0 <= d <= 9 ->
  atoi (digit d :: rest)
  = let '(q, rem, err) := leadingInt (digit d :: rest) in
    if (err || (0 <? length rem)%nat)%bool then (0, true) else (q, false).
Proof.
  intros Hd. unfold atoi. rewrite !digit_eqb by assumption.
  assert (H1 : (N_of_ascii "-" =? 48 + Z.to_N d)%N = false)
    by (apply N.eqb_neq; simpl; lia).
  assert (H2 : (N_of_ascii "+" =? 48 + Z.to_N d)%N = false)
    by (apply N.eqb_neq; simpl; lia).
  rewrite H1, H2. cbn [orb]. by destruct (leadingInt _) as [[q rem] err].
Qed.

Lemma atoi_zpad w u :
  0 <= u < 10 ^ Z.of_nat (S w) -> (S w <= 18)%nat -> atoi (zpad (S w) u) = (u, false).
Proof.
  intros Hu Hw. destruct (zpad_head w u) as (d & rest & Hd & Heq).
  rewrite Heq, atoi_digits by assumption. rewrite <- Heq. unfold leadingInt.
  rewrite <- (app_nil_r (zpad (S w) u)).
  rewrite leadingInt_from_zpad; [reflexivity | assumption | lia |].
  assert (10 ^ Z.of_nat (S w) <= 10 ^ 18) by (apply Z.pow_le_mono_r; lia). lia.
Qed.

Lemma ndigits_fuel_le f : forall u w,
  0 <= u < 10 ^ Z.of_nat w -> (ndigits_fuel f u <= w)%nat.
Proof.
  induction f as [|f IH]; intros u w Hu; simpl; [lia|].
  destruct (u =? 0) eqn:H0; [lia|]. apply Z.eqb_neq in H0.
  destruct w as [|w]; [simpl in Hu; lia|].
  apply le_n_S, IH, div10_lt, Hu.
Qed.

Lemma appendInt_zpad b x w :
  0 <= x < 10 ^ Z.of_nat (S w) -> appendInt b x (S w) = b ++ zpad (S w) x.
Proof.
  intros Hx. unfold appendInt.
  assert (Hneg : (x <? 0) = false) by (apply Z.ltb_ge; lia). rewrite Hneg.
  rewrite Z.abs_eq by lia. f_equal. f_equal. apply Nat.max_l.
  unfold ndigits. destruct (x =? 0); [lia|]. by apply ndigits_fuel_le.
Qed.

Lemma fracDigits_digits w : forall u, Forall (fun c => is_digit c = true) (fracDigits w u).
Proof.
  induction w as [|w IH]; intros u; simpl; [constructor|].
  destruct (u mod 10 =? 0); [apply IH | apply (zpad_digits (S w))].
Qed.

(** The digits kept are those of [u] without its zeros at the end. *)
Lemma fracDigits_value w : forall u,
  0 < u < 10 ^ Z.of_nat w -> (w <= 18)%nat ->
  (1 <= length (fracDigits w u) <= w)%nat
  /\ exists q,
       atoi (fracDigits w u) = (q, false)
       /\ q * 10 ^ Z.of_nat (w - length (fracDigits w u)) = u.
Proof.
  induction w as [|w IH]; intros u Hu Hw; [simpl in Hu; lia|].
  cbn [fracDigits]. destruct (u mod 10 =? 0) eqn:Hz.
  - apply Z.eqb_eq in Hz.
    assert (Hu10 : u = 10 * (u / 10) + u mod 10) by (apply Z.div_mod; lia).
    assert (Hdiv : 0 < u / 10 < 10 ^ Z.of_nat w).
    { pose proof (div10_lt w u ltac:(lia)). lia. }
    destruct (IH (u / 10) Hdiv ltac:(lia)) as (Hlen & q & Hq & Hval).
    split; [lia|]. exists q. split; [exact Hq|].
    replace (S w - length (fracDigits w (u / 10)))%nat
      with (S (w - length (fracDigits w (u / 10)))) by lia.
    rewrite pow10_succ. lia.
  - rewrite length_zpad. split; [lia|]. exists u. split.
    + apply atoi_zpad; [lia | assumption].
    + rewrite Nat.sub_diag. simpl. lia.
Qed.

Lemma fracDigits_last w : forall u,
  0 < u < 10 ^ Z.of_nat w ->
  exists pre d, 1 <= d <= 9 /\ fracDigits w u = pre ++ [digit d].
Proof.
  induction w as [|w IH]; intros u Hu; [simpl in Hu; lia|].
  cbn [fracDigits]. destruct (u mod 10 =? 0) eqn:Hz.
  - apply Z.eqb_eq in Hz. apply IH.
    assert (Hu10 : u = 10 * (u / 10) + u mod 10) by (apply Z.div_mod; lia).
    pose proof (div10_lt w u ltac:(lia)). lia.
  - apply Z.eqb_neq in Hz. exists (zpad w (u / 10)), (u mod 10).
    pose proof (mod10_range u). split; [lia | reflexivity].
Qed.

Lemma dropZeros_zpad w : forall u pre,
  0 < u < 10 ^ Z.of_nat w ->
  dropZeros (rev (pre ++ zpad w u)) = rev (pre ++ fracDigits w u).
Proof.
  induction w as [|w IH]; intros u pre Hu; [simpl in Hu; lia|].
  cbn [fracDigits zpad]. rewrite app_assoc, rev_unit. cbn [dropZeros].
  rewrite digit_eqb by apply mod10_range.
  change (N_of_ascii "0") with 48%N.
  pose proof (mod10_range u) as Hm.
  destruct (u mod 10 =? 0) eqn:Hz.
  - apply Z.eqb_eq in Hz. rewrite Hz. simpl. apply IH.
    assert (Hu10 : u = 10 * (u / 10) + u mod 10) by (apply Z.div_mod; lia).
    pose proof (div10_lt w u ltac:(lia)). lia.
  - apply Z.eqb_neq in Hz.
    assert (H : (48 =? 48 + Z.to_N (u mod 10))%N = false) by (apply N.eqb_neq; lia).
    rewrite H. rewrite <- rev_unit, <- app_assoc. reflexivity.
Qed.

Lemma appendNano_fraction b nanosec :
  0 <= nanosec < 1000000000 ->
  appendNano b nanosec 9 "." = b ++ fraction nanosec.
Proof.
  intros Hn. unfold appendNano, fraction. cbn [Nat.eqb orb].
  destruct (nanosec =? 0) eqn:Hz; [by rewrite app_nil_r|].
  apply Z.eqb_neq in Hz.
  assert (Hr : 0 < nanosec < 10 ^ Z.of_nat 9) by (change (10 ^ Z.of_nat 9) with 1000000000; lia).
  rewrite appendInt_zpad by lia. cbn [Nat.ltb Nat.leb].
  rewrite dropZeros_zpad by exact Hr.
  destruct (fracDigits_last 9 nanosec Hr) as (pre & d & Hd & Heq).
  rewrite Heq, !app_assoc, rev_unit, digit_eqb by lia.
  assert (H : (N_of_ascii "." =? 48 + Z.to_N d)%N = false)
    by (apply N.eqb_neq; simpl; lia).
  rewrite H, <- rev_unit, rev_involutive, <- !app_assoc. reflexivity.
Qed.

Lemma chunks_tsFormat :
  chunks tsFormat
  = [([], stdLongYear, list_ascii_of_string "2006");
     (["-"%char], stdZeroMonth, list_ascii_of_string "01");
     (["-"%char], stdZeroDay, list_ascii_of_string "02");
     ([" "%char], stdHour, list_ascii_of_string "15");
     ([":"%char], stdZeroMinute, list_ascii_of_string "04");
     ([":"%char], stdZeroSecond, list_ascii_of_string "05");
     ([], stdFracSecond9 9 ".", list_ascii_of_string ".999999999");
     ([" "%char], stdNumTZ, list_ascii_of_string "-0700");
     ([" "%char], stdTZ, list_ascii_of_string "MST");
     ([], stdNone, [])].
Proof. vm_compute. reflexivity. Qed.

Lemma valid_ranges t :
  valid t = true ->
  1 <= Month t <= 12 /\ 1 <= Day t <= daysIn (Month t) (Year t)
  /\ 0 <= Hour t < 24 /\ 0 <= Minute t < 60 /\ 0 <= Second t < 60
  /\ 0 <= Nanosecond t < 1000000000.
Proof.
  unfold valid. rewrite !andb_true_iff, !Z.leb_le, !Z.ltb_lt. tauto.
Qed.

Lemma daysIn_le m y : 1 <= m <= 12 -> daysIn m y <= 31.
Proof.
  intros H. unfold daysIn. destruct ((m =? 2) && isLeap y); [lia|].
  assert (m = 1 \/ m = 2 \/ m = 3 \/ m = 4 \/ m = 5 \/ m = 6 \/ m = 7 \/ m = 8
          \/ m = 9 \/ m = 10 \/ m = 11 \/ m = 12) as Hm by lia.
  repeat (destruct Hm as [-> | Hm]; [simpl; lia|]). subst m. simpl. lia.
Qed.

Lemma appendZone_UTC b :
  appendZone b (zoneOffset UTC) = b ++ list_ascii_of_string "+0000".
Proof.
  unfold appendZone. cbn [zoneOffset UTC]. 
  change (Z.quot 0 60) with 0. cbn [Z.ltb Z.compare].
  change (Z.quot 0 60) with 0. change (Z.rem 0 60) with 0.
  rewrite !(appendInt_zpad _ 0 1) by (change (10 ^ Z.of_nat 2) with 100; lia).
  rewrite <- !app_assoc. reflexivity.
Qed.

Lemma Format_stamp t :
  stampable t -> Format t tsFormat = string_of_list_ascii (stamp t).
Proof.
  intros (Hv & Hloc & Hy). apply valid_ranges in Hv.
  destruct Hv as (Hmo & Hd & Hh & Hmi & Hs & Hn).
  pose proof (daysIn_le _ (Year t) Hmo) as Hd31.
  unfold Format. rewrite chunks_tsFormat. f_equal.
  cbn [fold_left Format_chunk appendStd app]. rewrite Hloc.
  rewrite (appendInt_zpad _ (Year t) 3) by (change (10 ^ Z.of_nat 4) with 10000; lia).
  rewrite (appendInt_zpad _ (Month t) 1) by (change (10 ^ Z.of_nat 2) with 100; lia).
  rewrite (appendInt_zpad _ (Day t) 1) by (change (10 ^ Z.of_nat 2) with 100; lia).
  rewrite (appendInt_zpad _ (Hour t) 1) by (change (10 ^ Z.of_nat 2) with 100; lia).
  rewrite (appendInt_zpad _ (Minute t) 1) by (change (10 ^ Z.of_nat 2) with 100; lia).
  rewrite (appendInt_zpad _ (Second t) 1) by (change (10 ^ Z.of_nat 2) with 100; lia).
  rewrite appendNano_fraction by lia.
  rewrite appendZone_UTC.
  unfold stamp. change (negb (zoneName UTC =? EmptyString)%string) with true.
  cbn iota. cbn [zoneName UTC]. rewrite !app_nil_r, <- !app_assoc. reflexivity.
Qed.

Lemma parse_loop_cons al av prefix s str cs f value value1 f' value2 :
  s <> stdNone ->
  skip value prefix = (value1, false) ->
  parse_std s (next_std cs) f value1 = (f', value2, EmptyString, false) ->
  parse_loop al av ((prefix, s, str) :: cs) f value = parse_loop al av cs f' value2.
Proof.
  intros Hs Hskip Hstd. cbn [parse_loop]. rewrite Hskip.
  destruct s; try contradiction; rewrite Hstd; reflexivity.
Qed.

Lemma zpad2 x : zpad 2 x = [digit (x / 10 mod 10); digit (x mod 10)].
Proof. reflexivity. Qed.

Lemma getnum_zpad2 x rest fixed :
  0 <= x < 100 -> getnum (zpad 2 x ++ rest) fixed = (x, rest, false).
Proof.
  intros Hx. rewrite zpad2. cbn [app getnum].
  rewrite !is_digit_digit, !digit_val_digit by apply mod10_range.
  cbn [negb]. f_equal. f_equal.
  rewrite (Z.mod_small (x / 10)) by (split; [apply Z.div_pos | apply Z.div_lt_upper_bound]; lia).
  pose proof (Z.div_mod x 10). lia.
Qed.

Lemma cutspace_digit d rest :
  0 <= d <= 9 -> cutspace (digit d :: rest) = digit d :: rest.
Proof.
  intros Hd. cbn [cutspace]. rewrite digit_eqb by assumption.
  assert (H : (N_of_ascii " " =? 48 + Z.to_N d)%N = false)
    by (apply N.eqb_neq; simpl; lia).
  by rewrite H.
Qed.

Lemma skip_space_zpad w x rest :
  skip (" "%char :: zpad (S w) x ++ rest) [" "%char] = (zpad (S w) x ++ rest, false).
Proof.
  destruct (zpad_head w x) as (d & tl & Hd & ->).
  unfold skip. cbn [length skip_fuel app Ascii.eqb Bool.eqb negb].
  change (cutspace [" "%char]) with (@nil ascii). cbn iota.
  change (cutspace (" "%char :: digit d :: tl ++ rest))
    with (cutspace (digit d :: tl ++ rest)).
  rewrite cutspace_digit by assumption. reflexivity.
Qed.

Lemma parse_year f next y rest :
  0 <= y <= 9999 ->
  parse_std stdLongYear next f (zpad 4 y ++ rest)
  = (set_f_year y f, rest, EmptyString, false).
Proof.
  intros Hy. cbn [parse_std].
  rewrite length_app, length_zpad.
  destruct (zpad_head 3 y) as (d & tl & Hd & Heq).
  assert (Hdig : isDigit (zpad 4 y ++ rest) 0 = true).
  { rewrite Heq. cbn. by apply is_digit_digit. }
  rewrite Hdig. cbn [Nat.ltb Nat.leb Nat.add orb negb].
  rewrite take_app_length', drop_app_length' by (by rewrite length_zpad).
  rewrite atoi_zpad by (try lia; change (10 ^ Z.of_nat 4) with 10000; lia).
  reflexivity.
Qed.

Lemma parse_month f next x rest :
  1 <= x <= 12 ->
  parse_std stdZeroMonth next f (zpad 2 x ++ rest)
  = (set_f_month x f, rest, EmptyString, false).
Proof.
  intros Hx. cbn [parse_std]. rewrite getnum_zpad2 by lia.
  assert (H : (negb false && ((x <=? 0) || (12 <? x))) = false) by (cbn [negb andb]; zbool).
  by rewrite H.
Qed.

Lemma parse_day f next x rest :
  0 <= x < 100 ->
  parse_std stdZeroDay next f (zpad 2 x ++ rest)
  = (set_f_day x f, rest, EmptyString, false).
Proof. intros Hx. cbn [parse_std]. by rewrite getnum_zpad2 by lia. Qed.

Lemma parse_hour f next x rest :
  0 <= x < 24 ->
  parse_std stdHour next f (zpad 2 x ++ rest)
  = (set_f_hour x f, rest, EmptyString, false).
Proof.
  intros Hx. cbn [parse_std]. rewrite getnum_zpad2 by lia.
  assert (H : ((x <? 0) || (24 <=? x)) = false) by zbool.
  by rewrite H.
Qed.

Lemma parse_minute f next x rest :
  0 <= x < 60 ->
  parse_std stdZeroMinute next f (zpad 2 x ++ rest)
  = (set_f_min x f, rest, EmptyString, false).
Proof.
  intros Hx. cbn [parse_std]. rewrite getnum_zpad2 by lia.
  assert (H : ((x <? 0) || (60 <=? x)) = false) by zbool.
  by rewrite H.
Qed.

(** The seconds, before a fraction or before the space that follows. *)
Lemma parse_second f n dot x ns rest :
  0 <= x < 60 ->
  parse_std stdZeroSecond (stdFracSecond9 n dot) f
    (zpad 2 x ++ fraction ns ++ " "%char :: rest)
  = (set_f_sec x f, fraction ns ++ " "%char :: rest, EmptyString, false).
Proof.
  intros Hx. cbn [parse_std]. rewrite getnum_zpad2 by lia.
  assert (H : ((x <? 0) || (60 <=? x)) = false) by zbool.
  rewrite H. unfold fraction. destruct (ns =? 0); cbn [app]; [reflexivity|].
  by destruct (commaOrPeriod "." && isDigit _ 1).
Qed.

Lemma countDigits_app ds c rest :
  Forall (fun c => is_digit c = true) ds -> is_digit c = false ->
  countDigits (ds ++ c :: rest) = length ds.
Proof.
  intros Hds Hc. induction Hds as [|d ds Hd _ IH]; cbn [app countDigits length].
  - by rewrite Hc.
  - by rewrite Hd, IH.
Qed.

Lemma parse_fraction f next ns rest :
  0 <= ns < 1000000000 -> f_nsec f = 0 ->
  parse_std (stdFracSecond9 9 ".") next f (fraction ns ++ " "%char :: rest)
  = (set_f_nsec ns f, " "%char :: rest, EmptyString, false).
Proof.
  intros Hns Hf. cbn [parse_std]. unfold fraction.
  destruct (ns =? 0) eqn:Hz.
  - apply Z.eqb_eq in Hz. subst ns. cbn. rewrite <- Hf. by destruct f.
  - apply Z.eqb_neq in Hz.
    assert (Hr : 0 < ns < 10 ^ Z.of_nat 9) by (change (10 ^ Z.of_nat 9) with 1000000000; lia).
    destruct (fracDigits_value 9 ns Hr ltac:(lia)) as (Hlen & q & Hq & Hval).
    pose proof (fracDigits_digits 9 ns) as Hds.
    set (ds := fracDigits 9 ns) in *.
    cbn [app]. 
    assert (Hd1 : isDigit ("."%char :: ds ++ " "%char :: rest) 1 = true).
    { destruct ds as [|d ds']; [simpl in Hlen; lia|]. cbn.
      by inversion Hds. }
    rewrite Hd1. cbn [commaOrPeriod Ascii.eqb Bool.eqb orb negb].
    cbn [skipn]. rewrite !drop_0.
    rewrite countDigits_app by (assumption || reflexivity).
    unfold parseNanoseconds. cbn [commaOrPeriod Ascii.eqb Bool.eqb orb negb].
    assert (Hlt : (10 <? 1 + length ds)%nat = false) by (apply Nat.ltb_ge; lia).
    rewrite Hlt. cbn [Nat.add firstn skipn]. rewrite ?drop_0.
    rewrite take_app_length, drop_app_length, Hq.
    assert (Hneg : (q <? 0) = false).
    { apply Z.ltb_ge. pose proof (pow10_pos (9 - length ds)). nia. }
    rewrite Hneg.
    replace (10 - S (length ds))%nat with (9 - length ds)%nat by lia.
    by rewrite Hval.
Qed.

Tactic Notation "parse_step" tactic3(skipped) "then" tactic3(parsed) :=
  erewrite parse_loop_cons; [ | discriminate | skipped | parsed ].

Lemma Parse_stamp t :
  stampable t ->
  Parse tsFormat (string_of_list_ascii (stamp t)) = (t, None).
Proof.
  intros (Hv & Hloc & Hy). apply valid_ranges in Hv.
  destruct Hv as (Hmo & Hd & Hh & Hmi & Hs & Hn).
  pose proof (daysIn_le _ (Year t) Hmo) as Hd31.
  unfold Parse. rewrite chunks_tsFormat, list_ascii_of_string_of_list_ascii.
  unfold stamp.
  parse_step reflexivity then (apply parse_year; lia).
  parse_step reflexivity then (apply parse_month; lia).
  parse_step reflexivity then (apply parse_day; lia).
  parse_step (apply skip_space_zpad) then (apply parse_hour; lia).
  parse_step reflexivity then (apply parse_minute; lia).
  change (list_ascii_of_string " +0000 UTC")
    with (" "%char :: list_ascii_of_string "+0000 UTC").
  parse_step reflexivity then (apply parse_second; lia).
  parse_step reflexivity then (apply parse_fraction; [lia | reflexivity]).
  parse_step reflexivity then reflexivity.
  parse_step reflexivity then reflexivity.
  cbn -[Z.ltb Z.eqb daysIn].
  assert (Hm1 : (Month t =? -1) = false) by (apply Z.eqb_neq; lia).
  assert (Hd1 : (Day t =? -1) = false) by (apply Z.eqb_neq; lia).
  rewrite Hm1, Hd1.
  assert (Hday : ((Day t <? 1) || (daysIn (Month t) (Year t) <? Day t)) = false) by zbool.
  rewrite Hday. rewrite <- Hloc. by destruct t.
Qed.

End TimeFacts.

(** The text of an instant of a UTC clock in a year of four digits, and the
    way back. *)
Lemma Parse_Format (t : GoTime.Time) :
  GoTime.stampable t -> GoTime.Parse tsFormat (GoTime.Format t tsFormat) = (t, None).
Proof. intros H. rewrite (Format_stamp t H). exact (Parse_stamp t H). Qed.

Lemma length_string_of_list_ascii (l : list ascii) :
  String.length (string_of_list_ascii l) = length l.
Proof. induction l as [|c l IH]; simpl; [reflexivity | by rewrite IH]. Qed.

Lemma length_fraction (nanosec : Z) :
  0 <= nanosec < 1000000000 ->
  (length (GoTime.fraction nanosec) <= 10)%nat
  /\ (length (GoTime.fraction nanosec) = 0%nat <-> nanosec = 0).
Proof.
  intros H. unfold GoTime.fraction. destruct (nanosec =? 0) eqn:Hz.
  - apply Z.eqb_eq in Hz. simpl. split; [lia | tauto].
  - apply Z.eqb_neq in Hz.
    destruct (fracDigits_value 9 nanosec) as [Hlen _]; [|lia|].
    + change (10 ^ Z.of_nat 9) with 1000000000. lia.
    + cbn [length]. split; [lia|]. split; [discriminate | tauto].
Qed.

(** C7, as the code has it.  The text of a timestamp has no fixed
    precision: it is [stamp t], whose fraction of a second is absent when
    the nanoseconds are zero and has otherwise the nine digits without the
    zeros at their end.  For an instant of a UTC clock in a year of four
    digits, parsing the text with the layout gives back the instant. *)
Theorem tsFormat_roundtrip (t : GoTime.Time) :
  GoTime.stampable t ->
  GoTime.Format t tsFormat = string_of_list_ascii (GoTime.stamp t)
  /\ String.length (GoTime.Format t tsFormat)
     = (29 + length (GoTime.fraction (GoTime.Nanosecond t)))%nat
  /\ (length (GoTime.fraction (GoTime.Nanosecond t)) = 0%nat
      <-> GoTime.Nanosecond t = 0)
  /\ (length (GoTime.fraction (GoTime.Nanosecond t)) <= 10)%nat
  /\ GoTime.Parse tsFormat (GoTime.Format t tsFormat) = (t, None).
Proof.
  intros H. pose proof H as (Hv & _ & _). apply valid_ranges in Hv.
  destruct Hv as (_ & _ & _ & _ & _ & Hn).
  destruct (length_fraction _ Hn) as [Hle Hz].
  split; [exact (Format_stamp t H)|]. split; [|split; [exact Hz | split; [exact Hle|]]].
  - rewrite (Format_stamp t H). unfold GoTime.stamp.
    rewrite length_string_of_list_ascii.
    repeat (rewrite ?length_app, ?length_zpad; cbn [length]).
    change (length (list_ascii_of_string " +0000 UTC")) with 10%nat.
    lia.
  - exact (Parse_Format t H).
Qed.

Lemma tsFormat_roundtrip_witness :
  let t := Sample.at_ 2024 3 9 7 5 1 500000000 in
  GoTime.stampable t
  /\ GoTime.Format t tsFormat = "2024-03-09 07:05:01.5 +0000 UTC"
  /\ GoTime.Parse tsFormat (GoTime.Format t tsFormat) = (t, None).
Proof.
  intros t.
  assert (H : GoTime.stampable t) by (repeat split; (reflexivity || (cbn; lia))).
  split; [exact H|]. split; [vm_compute; reflexivity|].
  exact (proj2 (proj2 (proj2 (proj2 (tsFormat_roundtrip t H))))).
Defined.

(** C7, as it is stated, fails twice: two instants of the same minute have
    texts of different lengths, one without a fraction and one with a
    single digit of it; and the text of an instant of the year 10000 is not
    parsed back. *)
Lemma tsFormat_not_fixed_precision :
  GoTime.Format (Sample.at_ 2024 3 9 7 5 0 0) tsFormat
    = "2024-03-09 07:05:00 +0000 UTC"
  /\ GoTime.Format (Sample.at_ 2024 3 9 7 5 1 500000000) tsFormat
     = "2024-03-09 07:05:01.5 +0000 UTC"
  /\ ~ (forall t u,
          GoTime.valid t = true -> GoTime.Loc t = GoTime.UTC ->
          GoTime.valid u = true -> GoTime.Loc u = GoTime.UTC ->
          String.length (GoTime.Format t tsFormat)
          = String.length (GoTime.Format u tsFormat))
  /\ GoTime.valid (Sample.at_ 10000 1 1 0 0 0 0) = true
  /\ GoTime.Format (Sample.at_ 10000 1 1 0 0 0 0) tsFormat
     = "10000-01-01 00:00:00 +0000 UTC"
  /\ (GoTime.Parse tsFormat (GoTime.Format (Sample.at_ 10000 1 1 0 0 0 0) tsFormat)).2
     = Some (ParseError tsFormat "10000-01-01 00:00:00 +0000 UTC"
               "-" "0-01-01 00:00:00 +0000 UTC" EmptyString).
Proof.
  split; [vm_compute; reflexivity|]. split; [vm_compute; reflexivity|].
  split; [|repeat split; vm_compute; reflexivity].
  intros H.
  specialize (H (Sample.at_ 2024 3 9 7 5 0 0) (Sample.at_ 2024 3 9 7 5 1 500000000)
                eq_refl eq_refl eq_refl eq_refl).
  vm_compute in H. discriminate H.
Qed.

(** ** Sealing, storing, reading and opening *)

Lemma unary_repeat (n : nat) (rest : bytes) :
  Sample.unary (repeat Byte.x01 n ++ Byte.x00 :: rest) = Some (n, rest).
Proof. induction n as [|n IH]; simpl; [reflexivity | by rewrite IH]. Qed.

(** The sample opening capability inverts the sample sealing capability. *)
Lemma opened_sealed (entry ad : bytes) :
  Sample.opened (Sample.sealed entry ad) = ((entry, ad), None).
Proof.
  unfold Sample.opened, Sample.sealed. rewrite unary_repeat.
  assert (H : (length ad <=? length (ad ++ entry))%nat = true)
    by (apply Nat.leb_le; rewrite length_app; lia).
  rewrite H. by rewrite take_app_length, drop_app_length.
Qed.

Section RoundTrip.

Import GoTime.

Context {Store Rand : Type} (m : CryptStore.t Store Rand).

Lemma Put_ok_inv key entry (w w1 : World Store Rand) :
  CryptStore.Put m key entry w = (None, w1) ->
  exists vault rnd',
    Encryptor_Crypt (CryptStore.encryptor m) entry
      (list_byte_of_string (Format (clock w (ticks w)) tsFormat)) (entropy w)
    = ((vault, None), rnd')
    /\ Ops_Put (CryptStore.storeOps m) key vault (backend w) = (None, backend w1)
    /\ clock w1 = clock w /\ ticks w1 = S (ticks w).
Proof.
  unfold CryptStore.Put, CryptStore.Now_UTC, CryptStore.seal, CryptStore.call.
  cbn [backend entropy clock ticks].
  destruct (Encryptor_Crypt _ _ _ _) as [[vault [e|]] rnd'] eqn:Hseal; [discriminate|].
  cbn [backend entropy clock ticks].
  destruct (Ops_Put _ _ _ _) as [[e|] s'] eqn:Hput; [discriminate|].
  intros [= <-]. exists vault, rnd'. repeat split. exact Hput.
Qed.

End RoundTrip.

(** C4, as the code has it.  When the opening capability inverts the
    sealing capability, the wrapped store returns from [Read] what [Put]
    stored, the reading of the clock at the seal is an instant in a year of
    four digits, and the reading at the opening is not before it, a [Put]
    of the decorator that succeeds is followed by a [Read] that returns the
    plaintext; the stored envelope opens to the plaintext and to a
    timestamp that is the reading at the seal, so not before it and not
    after the reading at the opening. *)
Theorem CryptStore_Put_Read_roundtrip {Store Rand : Type}
  (m : CryptStore.t Store Rand) (key : string) (p : bytes) (w w1 : World Store Rand) :
  CryptStore.inverts m ->
  CryptStore.conforming m ->
  GoTime.stampable (clock w (ticks w)) ->
  GoTime.After (clock w (ticks w)) (clock w (S (ticks w))) = false ->
  CryptStore.Put m key p w = (None, w1) ->
  (CryptStore.Read m key w1).1 = (p, None)
  /\ exists vault ts,
       (Ops_Read (CryptStore.storeOps m) key (backend w1)).1 = (vault, None)
       /\ CryptStore.opens m vault p ts
       /\ ts = clock w (ticks w)
       /\ GoTime.After (clock w (ticks w)) ts = false
       /\ GoTime.After ts (clock w1 (ticks w1)) = false.
Proof.
  intros Hinv Hconf Hstamp Hmono HPut.
  destruct (Put_ok_inv m key p w w1 HPut) as (vault & rnd' & Hseal & Hput & Hc & Ht).
  pose proof (Hinv _ _ _ _ _ Hseal) as Hopen.
  pose proof (Hconf _ _ _ _ Hput) as Hread.
  assert (Hopens : CryptStore.opens m vault p (clock w (ticks w))).
  { eexists. split; [exact Hopen|].
    rewrite string_of_list_byte_of_string. by apply Parse_Format. }
  assert (Hcall : exists w2,
            CryptStore.call (Ops_Read (CryptStore.storeOps m) key) w1
            = ((vault, None), w2)).
  { unfold CryptStore.call.
    destruct (Ops_Read (CryptStore.storeOps m) key (backend w1)) as [r s2].
    simpl in Hread. subst r. by eexists. }
  destruct Hcall as [w2 Hcall]. split.
  - rewrite (Read_open_and_check m key w1 vault w2 Hcall).
    rewrite (opens_check m vault p _ _ Hopens). by rewrite Hc, Ht, Hmono.
  - exists vault, (clock w (ticks w)). repeat split; try assumption.
    + apply After_irrefl.
    + by rewrite Hc, Ht.
Qed.

Lemma CryptStore_Put_Read_roundtrip_witness :
  let w := Sample.world {[ "k" := [] ]} Sample.clock2024 in
  CryptStore.inverts Sample.store
  /\ CryptStore.conforming Sample.store
  /\ GoTime.stampable (clock w (ticks w))
  /\ GoTime.After (clock w (ticks w)) (clock w (S (ticks w))) = false
  /\ (CryptStore.Put Sample.store "k" Sample.hello w).1 = None
  /\ (CryptStore.Read Sample.store "k"
        (CryptStore.Put Sample.store "k" Sample.hello w).2).1 = (Sample.hello, None).
Proof.
  intros w.
  assert (Hinv : CryptStore.inverts Sample.store).
  { intros entry ad rnd vault rnd' [= <- _]. apply opened_sealed. }
  assert (Hconf : CryptStore.conforming Sample.store).
  { intros key entry s s' H. exact (Read_after_Put s key entry s' H). }
  assert (Hst : GoTime.stampable (clock w (ticks w)))
    by (repeat split; (reflexivity || (cbn; lia))).
  assert (Hmono : GoTime.After (clock w (ticks w)) (clock w (S (ticks w))) = false)
    by (vm_compute; reflexivity).
  assert (HPut : exists w1, CryptStore.Put Sample.store "k" Sample.hello w = (None, w1)).
  { destruct (CryptStore.Put Sample.store "k" Sample.hello w) as [o w1] eqn:E.
    assert (Ho : o = (CryptStore.Put Sample.store "k" Sample.hello w).1) by (by rewrite E).
    vm_compute in Ho. subst o. by exists w1. }
  destruct HPut as [w1 HPut]. rewrite HPut.
  split; [exact Hinv|]. split; [exact Hconf|]. split; [exact Hst|].
  split; [exact Hmono|]. split; [reflexivity|].
  exact (proj1 (CryptStore_Put_Read_roundtrip Sample.store "k" Sample.hello w w1
                  Hinv Hconf Hst Hmono HPut)).
Defined.

(** C4, as it is stated, fails when the clock stands in the year 10000: the
    capabilities are inverse, the store is conforming, the clock does not
    go back and [Put] succeeds, but the timestamp it seals has a year of
    five digits, which [Read] fails to parse. *)
Lemma CryptStore_roundtrip_year_10000 :
  let w := Sample.world {[ "k" := [] ]} Sample.clock10000 in
  CryptStore.inverts Sample.store
  /\ CryptStore.conforming Sample.store
  /\ GoTime.valid (clock w (ticks w)) = true
  /\ GoTime.Loc (clock w (ticks w)) = GoTime.UTC
  /\ (forall i j, (i <= j < 60)%nat ->
        GoTime.After (Sample.clock10000 i) (Sample.clock10000 j) = false)
  /\ (CryptStore.Put Sample.store "k" Sample.hello w).1 = None
  /\ (CryptStore.Read Sample.store "k"
        (CryptStore.Put Sample.store "k" Sample.hello w).2).1
     = ([], Some (ParseError tsFormat "10000-01-01 00:00:00 +0000 UTC"
                    "-" "0-01-01 00:00:00 +0000 UTC" EmptyString))
  /\ (CryptStore.Read Sample.store "k"
        (CryptStore.Put Sample.store "k" Sample.hello w).2).1
     <> (Sample.hello, None).
Proof.
  intros w. split; [|split].
  { intros entry ad rnd vault rnd' [= <- _]. apply opened_sealed. }
  { intros key entry s s' H. exact (Read_after_Put s key entry s' H). }
  split; [reflexivity|]. split; [reflexivity|]. split.
  { intros i j Hij. unfold GoTime.After, GoTime.sec, Sample.clock10000, Sample.at_.
    cbn [GoTime.Year GoTime.Month GoTime.Day GoTime.Hour GoTime.Minute
         GoTime.Second GoTime.Nanosecond GoTime.Loc].
    rewrite !Z.rem_small by lia.
    apply orb_false_intro; [apply Z.ltb_ge; lia|].
    apply andb_false_intro2. reflexivity. }
  split; [vm_compute; reflexivity|].
  assert (H : (CryptStore.Read Sample.store "k"
                 (CryptStore.Put Sample.store "k" Sample.hello w).2).1
              = ([], Some (ParseError tsFormat "10000-01-01 00:00:00 +0000 UTC"
                             "-" "0-01-01 00:00:00 +0000 UTC" EmptyString)))
    by (vm_compute; reflexivity).
  split; [exact H|]. rewrite H. discriminate.
Qed.

(** * More facts *)

(** ** The in-memory adapter, key by key *)

(** X1.  On a key that is not in the store, [ReadAll], [Read], [Put] and
    [Delete] of the in-memory adapter all fail with the [KeyNotFoundError]
    that names the key, and leave the store as it was: [Put] does not
    create the key. *)
Theorem InMemoryOps_missing_key
  (ops : gmap string (list bytes)) (key : string) (entry : bytes) :
  ops !! key = None ->
  let notFound := Some (KeyNotFoundError ("key " +:+ key +:+ " not found")) in
  InMemoryOps.ReadAll key ops = (([], notFound), ops)
  /\ InMemoryOps.Read key ops = (([], notFound), ops)
  /\ InMemoryOps.Put key entry ops = (notFound, ops)
  /\ InMemoryOps.Delete key ops = (notFound, ops)
  /\ Error (KeyNotFoundError ("key " +:+ key +:+ " not found"))
     = "libstore: key " +:+ key +:+ " not found".
Proof.
  intros H notFound. subst notFound.
  unfold InMemoryOps.ReadAll, InMemoryOps.Read, InMemoryOps.Put, InMemoryOps.Delete.
  unfold bytes in *. rewrite !H. repeat split; reflexivity.
Qed.

Lemma InMemoryOps_missing_key_witness :
  (InMemoryOps.run [InMemoryOps.CCreate "a"] !! "b" : option (list bytes)) = None
  /\ InMemoryOps.Put "b" [Byte.x01] (InMemoryOps.run [InMemoryOps.CCreate "a"])
     = (Some (KeyNotFoundError "key b not found"),
        InMemoryOps.run [InMemoryOps.CCreate "a"]).
Proof.
  assert (H : (InMemoryOps.run [InMemoryOps.CCreate "a"] !! "b"
               : option (list bytes)) = None) by reflexivity.
  split; [exact H|].
  exact (proj1 (proj2 (proj2 (InMemoryOps_missing_key _ "b" [Byte.x01] H)))).
Defined.

(** X2.  [Delete] of a key that is in the store succeeds and removes the
    key with its history: after it [ReadAll] and [Read] fail with a
    [KeyNotFoundError], a second [Delete] fails with it too, [Create]
    succeeds again and starts from the empty history, and every other key
    is as before. *)
Theorem InMemoryOps_Delete_present
  (ops : gmap string (list bytes)) (key : string) (data : list bytes) :
  ops !! key = Some data ->
  exists ops',
    InMemoryOps.Delete key ops = (None, ops')
    /\ ops' !! key = None
    /\ (forall key', key' <> key -> ops' !! key' = ops !! key')
    /\ (exists msg, (InMemoryOps.ReadAll key ops').1 = ([], Some (KeyNotFoundError msg)))
    /\ (exists msg, (InMemoryOps.Read key ops').1 = ([], Some (KeyNotFoundError msg)))
    /\ (exists msg, InMemoryOps.Delete key ops' = (Some (KeyNotFoundError msg), ops'))
    /\ (InMemoryOps.Create key ops').1 = None
    /\ (InMemoryOps.ReadAll key (InMemoryOps.Create key ops').2).1 = ([], None).
Proof.
  intros H. exists (delete key ops).
  assert (Hgone : delete key ops !! key = None) by apply lookup_delete_eq.
  split; [unfold InMemoryOps.Delete; by rewrite H|]. split; [exact Hgone|].
  split; [intros key' Hne; by apply lookup_delete_ne|].
  unfold InMemoryOps.ReadAll, InMemoryOps.Read, InMemoryOps.Delete, InMemoryOps.Create.
  unfold bytes in *. rewrite !Hgone. cbn [fst snd]. rewrite lookup_insert_eq.
  repeat split; by eexists.
Qed.

Lemma InMemoryOps_Delete_present_witness :
  let ops := InMemoryOps.run [InMemoryOps.CCreate "a"; InMemoryOps.CPut "a" [Byte.x01]] in
  ops !! "a" = Some [[Byte.x01]]
  /\ exists ops', InMemoryOps.Delete "a" ops = (None, ops') /\ ops' !! "a" = None.
Proof.
  intros ops.
  assert (H : ops !! "a" = Some [[Byte.x01]]) by reflexivity.
  split; [exact H|].
  destruct (InMemoryOps_Delete_present ops "a" _ H) as (ops' & Hd & Hn & _).
  by exists ops'.
Defined.

(** X3.  [List] of the in-memory adapter returns, without an error and
    without touching the store, every key of the store once and nothing
    else; so after a [Delete] that succeeds it returns the keys it returned
    before, but for the deleted one. *)
Theorem InMemoryOps_List_keys (ops : gmap string (list bytes)) :
  let keys := (InMemoryOps.List_ ops).1.1 in
  InMemoryOps.List_ ops = ((keys, None), ops)
  /\ NoDup keys
  /\ (forall key, key ∈ keys <-> is_Some (ops !! key))
  /\ (forall key ops',
        InMemoryOps.Delete key ops = (None, ops') ->
        forall key', key' ∈ (InMemoryOps.List_ ops').1.1 <-> key' ∈ keys /\ key' <> key).
Proof.
  assert (Hin : forall (m : gmap string (list bytes)) key,
            key ∈ (InMemoryOps.List_ m).1.1 <-> is_Some (m !! key)).
  { intros m key. cbn. rewrite list_elem_of_fmap. split.
    - intros ([k v] & -> & Hkv). apply elem_of_map_to_list in Hkv. by exists v.
    - intros [v Hv]. exists (key, v). split; [reflexivity|].
      by apply elem_of_map_to_list. }
  cbn zeta. split; [reflexivity|]. split; [apply NoDup_fst_map_to_list|].
  split; [apply Hin|].
  intros key ops' Hdel key'. rewrite !Hin.
  unfold InMemoryOps.Delete in Hdel. destruct (ops !! key) eqn:Hk; [|discriminate].
  injection Hdel as <-. rewrite lookup_delete. case_decide as Hd.
  - subst key'. split; [intros [? ?]; discriminate | intros [_ ?]; congruence].
  - split; [intros ?; by split | by intros [? _]].
Qed.

(** X4.  A call of the in-memory adapter about one key leaves the history of
    every other key as it was, whether the call succeeds or fails. *)
Theorem InMemoryOps_other_keys
  (ops : gmap string (list bytes)) (c : InMemoryOps.call) (key' : string) :
  Scenario.call_key c <> Some key' ->
  InMemoryOps.step ops c !! key' = ops !! key'.
Proof.
  intros Hne. destruct c as [k|k|k|k e|k|]; simpl in *;
    unfold InMemoryOps.Create, InMemoryOps.ReadAll, InMemoryOps.Read,
      InMemoryOps.Put, InMemoryOps.Delete;
    try (destruct (ops !! k) as [d|] eqn:Hk; simpl; try reflexivity).
  - apply lookup_insert_ne. congruence.
  - by destruct (length d =? 0)%nat.
  - apply lookup_insert_ne. congruence.
  - apply lookup_delete_ne. congruence.
  - reflexivity.
Qed.

Lemma InMemoryOps_other_keys_witness :
  let ops := InMemoryOps.run [InMemoryOps.CCreate "a"; InMemoryOps.CCreate "b"] in
  Scenario.call_key (InMemoryOps.CPut "a" [Byte.x01]) <> Some "b"
  /\ InMemoryOps.step ops (InMemoryOps.CPut "a" [Byte.x01]) !! "b" = ops !! "b".
Proof.
  intros ops.
  assert (H : Scenario.call_key (InMemoryOps.CPut "a" [Byte.x01]) <> Some "b")
    by discriminate.
  split; [exact H | exact (InMemoryOps_other_keys ops _ "b" H)].
Defined.

(** X5.  [Read] of the in-memory adapter agrees with [ReadAll]: it fails
    with the error of [ReadAll] when that fails, with an [EntryError] when
    [ReadAll] returns the empty history, and returns the last entry of the
    history otherwise; neither of them changes the store. *)
Theorem InMemoryOps_Read_last (ops : gmap string (list bytes)) (key : string) :
  (InMemoryOps.ReadAll key ops).2 = ops
  /\ (InMemoryOps.Read key ops).2 = ops
  /\ (InMemoryOps.Read key ops).1
     = match (InMemoryOps.ReadAll key ops).1 with
       | (_, Some e) => ([], Some e)
       | (data, None) =>
           match last data with
           | Some entry => (entry, None)
           | None => ([], Some (EntryError ("no entries found for key " +:+ key)))
           end
       end.
Proof.
  unfold InMemoryOps.ReadAll, InMemoryOps.Read. unfold bytes in *.
  destruct (ops !! key) as [data|]; [|repeat split].
  split; [reflexivity|]. split; [by destruct (length data =? 0)%nat|].
  cbn [fst]. destruct data as [|d data _] using rev_ind; [reflexivity|].
  rewrite last_snoc, length_app. cbn [length].
  replace (length data + 1 =? 0)%nat with false by (symmetry; apply Nat.eqb_neq; lia).
  cbn [fst]. f_equal. rewrite nth_lookup.
  replace (length data + 1 - 1)%nat with (length data) by lia.
  by rewrite list_lookup_middle.
Qed.

(** ** The PostgreSQL adapter, row by row *)

Section dbRows.

Import dbOps.

Implicit Types (d : dbOps.t) (k : string) (r : row) (l : list row).

Lemma where_key_rows k d :
  where_key k d = List.filter (fun r => String.eqb (key r) k) (FILES d).
Proof. reflexivity. Qed.

Lemma where_key_key k d r : In r (where_key k d) -> key r = k.
Proof.
  rewrite where_key_rows, List.filter_In. intros [_ H]. by apply String.eqb_eq.
Qed.

Lemma where_key_insert k k' v ver d :
  where_key k' (insert_row k v ver d).2
  = where_key k' d
    ++ (if String.eqb k k' then [{| id := serial d; key := k; value := v; version := ver |}]
        else []).
Proof. destruct d as [rows s]. cbn [insert_row snd]. by rewrite (where_key_app _ _ _ s). Qed.

Lemma filter_none_all l k :
  List.filter (fun r => String.eqb (key r) k) l = [] ->
  List.filter (fun r => negb (String.eqb (key r) k)) l = l.
Proof.
  induction l as [|r l IH]; simpl; [reflexivity|].
  destruct (String.eqb (key r) k); [discriminate|]. intros H. simpl. by rewrite IH.
Qed.

Lemma filter_other_key l k k' :
  k <> k' ->
  List.filter (fun r => String.eqb (key r) k')
    (List.filter (fun r => negb (String.eqb (key r) k)) l)
  = List.filter (fun r => String.eqb (key r) k') l.
Proof.
  intros Hne. induction l as [|r l IH]; simpl; [reflexivity|].
  destruct (String.eqb (key r) k) eqn:Hk; simpl.
  - apply String.eqb_eq in Hk.
    assert (Hk' : String.eqb (key r) k' = false) by (apply String.eqb_neq; congruence).
    by rewrite Hk'.
  - by rewrite IH.
Qed.

Lemma filter_same_key l k :
  List.filter (fun r => String.eqb (key r) k)
    (List.filter (fun r => negb (String.eqb (key r) k)) l) = [].
Proof.
  induction l as [|r l IH]; simpl; [reflexivity|].
  destruct (String.eqb (key r) k) eqn:Hk; simpl; [exact IH|]. by rewrite Hk.
Qed.

(** The greatest version is at least every version. *)
Lemma fold_max_ge (vs : list Z) : forall v x, In x (v :: vs) -> x <= fold_left Z.max vs v.
Proof.
  induction vs as [|w vs IH]; intros v x Hx; simpl in *.
  - destruct Hx as [<-|[]]. lia.
  - destruct Hx as [<-|[<-|Hx]].
    + etransitivity; [|apply IH; by left]. lia.
    + etransitivity; [|apply IH; by left]. lia.
    + apply IH. by right.
Qed.

Lemma select_max_version_ge k d r :
  In r (where_key k d) -> version r <= (select_max_version k d).1.
Proof.
  intros Hr. unfold select_max_version.
  destruct (where_key k d) as [|r0 l] eqn:Hw; [destruct Hr|].
  cbn [List.map fst]. apply fold_max_ge. rewrite <- (List.map_cons version).
  by apply List.in_map.
Qed.

(** A row of a version above all the others sorts first downwards and last
    upwards. *)
Lemma insert_desc_below r new l :
  version r < version new ->
  insert_by version_desc r (new :: l) = new :: insert_by version_desc r l.
Proof.
  intros H. cbn [insert_by]. unfold version_desc at 1.
  by replace (version new <=? version r) with false by (symmetry; apply Z.leb_gt; lia).
Qed.

Lemma order_desc_snoc l new :
  (forall r, In r l -> version r < version new) ->
  order_by version_desc (l ++ [new]) = new :: order_by version_desc l.
Proof.
  unfold order_by. rewrite fold_right_app. cbn [fold_right insert_by].
  induction l as [|r l IH]; intros H; [reflexivity|].
  cbn [fold_right]. rewrite IH by (intros x Hx; apply H; by right).
  apply insert_desc_below, H. by left.
Qed.

Lemma insert_asc_snoc r new l :
  version r <= version new ->
  insert_by version_asc r (l ++ [new]) = insert_by version_asc r l ++ [new].
Proof.
  intros H. induction l as [|x l IH]; cbn [app insert_by].
  - unfold version_asc. by replace (version r <=? version new) with true
      by (symmetry; apply Z.leb_le; lia).
  - destruct (version_asc r x); [reflexivity|]. by rewrite IH.
Qed.

Lemma order_asc_snoc l new :
  (forall r, In r l -> version r <= version new) ->
  order_by version_asc (l ++ [new]) = order_by version_asc l ++ [new].
Proof.
  unfold order_by. rewrite fold_right_app. cbn [fold_right insert_by].
  induction l as [|r l IH]; intros H; [reflexivity|].
  cbn [fold_right]. rewrite IH by (intros x Hx; apply H; by right).
  apply insert_asc_snoc, H. by left.
Qed.

(** What [Put] does to the rows of its key. *)
Lemma Put_rows k entry d :
  (Put k entry d).1 = None
  /\ where_key k (Put k entry d).2
     = where_key k d
       ++ [{| id := serial d; key := k; value := Some entry;
              version := (select_max_version k d).1 + 1 |}]
  /\ FILES (Put k entry d).2
     = FILES d
       ++ [{| id := serial d; key := k; value := Some entry;
              version := (select_max_version k d).1 + 1 |}].
Proof.
  unfold Put. destruct (select_max_version k d) as [maxVersion err] eqn:Hm.
  assert (err = None) as ->.
  { unfold select_max_version in Hm.
    destruct (List.map version (where_key k d)); by inversion Hm. }
  cbn [other_than_ErrNoRows fst].
  change (insert_row k (Some entry) (maxVersion + 1) d)
    with (None : option error, (insert_row k (Some entry) (maxVersion + 1) d).2).
  cbn [fst snd]. split; [reflexivity|]. rewrite where_key_insert, String.eqb_refl.
  split; [reflexivity|]. by destruct d.
Qed.

Lemma ReadAll_rows k d :
  ReadAll k d
  = ((List.map scan_bytes (List.map value (order_by version_asc (where_key k d))), None), d).
Proof. reflexivity. Qed.

Lemma Read_rows k d :
  Read k d
  = match order_by version_desc (where_key k d) with
    | [] => (([], Some (KeyNotFoundError ("key not found: " +:+ k))), d)
    | r :: _ => ((scan_bytes (value r), None), d)
    end.
Proof.
  unfold Read, select_last_value.
  by destruct (order_by version_desc (where_key k d)).
Qed.

Lemma Put_ReadAll k entry d :
  (ReadAll k (Put k entry d).2).1 = ((ReadAll k d).1.1 ++ [entry], None).
Proof.
  rewrite !ReadAll_rows. cbn [fst].
  destruct (Put_rows k entry d) as (_ & -> & _).
  rewrite order_asc_snoc.
  - by rewrite !List.map_app.
  - intros r Hr. cbn [version]. pose proof (select_max_version_ge k d r Hr). lia.
Qed.

Lemma Put_Read k entry d : (Read k (Put k entry d).2).1 = (entry, None).
Proof.
  rewrite Read_rows. destruct (Put_rows k entry d) as (_ & -> & _).
  rewrite order_desc_snoc; [reflexivity|].
  intros r Hr. cbn [version]. pose proof (select_max_version_ge k d r Hr). lia.
Qed.

Lemma put_all_ReadAll k (vs : list bytes) : forall d,
  (ReadAll k (Scenario.put_all k vs d)).1 = ((ReadAll k d).1.1 ++ vs, None).
Proof.
  induction vs as [|v vs IH]; intros d; cbn [Scenario.put_all fold_left].
  - by rewrite app_nil_r, ReadAll_rows.
  - change (fold_left _ vs ?x) with (Scenario.put_all k vs x).
    rewrite IH, Put_ReadAll. cbn [fst]. by rewrite <- app_assoc.
Qed.

Lemma put_all_Read k (vs : list bytes) : forall d v,
  (Read k (Scenario.put_all k (vs ++ [v]) d)).1 = (v, None).
Proof.
  intros d v. unfold Scenario.put_all. rewrite fold_left_app. cbn [fold_left].
  apply Put_Read.
Qed.

Lemma where_key_other_write (c : Scenario.db_write) d k' :
  Scenario.db_write_key c <> k' ->
  where_key k' (Scenario.db_apply d c) = where_key k' d.
Proof.
  intros Hne. destruct c as [k|k e|k]; cbn [Scenario.db_apply Scenario.db_write_key] in *.
  - unfold Create. destruct (select_key k d) as [existingKey err].
    destruct (other_than_ErrNoRows err); [reflexivity|].
    destruct (negb _); [reflexivity|].
    change (insert_row k None 0 d) with (None : option error, (insert_row k None 0 d).2).
    cbn [snd]. rewrite where_key_insert.
    replace (String.eqb k k') with false by (symmetry; by apply String.eqb_neq).
    by rewrite app_nil_r.
  - destruct (Put_rows k e d) as (_ & _ & Hf).
    rewrite !where_key_rows, Hf, List.filter_app. cbn [List.filter key].
    replace (String.eqb k k') with false by (symmetry; by apply String.eqb_neq).
    by rewrite app_nil_r.
  - unfold Delete, delete_rows. cbn [snd].
    destruct (Z.of_nat _ =? 0); cbn [snd]; rewrite !where_key_rows; cbn [FILES];
      by apply filter_other_key.
Qed.

Lemma reads_other_write (c : Scenario.db_write) d k' :
  Scenario.db_write_key c <> k' ->
  (Read k' (Scenario.db_apply d c)).1 = (Read k' d).1
  /\ (ReadAll k' (Scenario.db_apply d c)).1 = (ReadAll k' d).1.
Proof.
  intros H. rewrite !Read_rows, !ReadAll_rows, (where_key_other_write c d k' H).
  split; [|reflexivity].
  by destruct (order_by version_desc (where_key k' d)).
Qed.

End dbRows.


(** X7.  On a key without a row, [Read] of the PostgreSQL adapter fails
    with a [KeyNotFoundError] and so does [Delete], which leaves the table
    as it was, but [ReadAll] returns the empty sequence and no error. *)
Theorem dbOps_missing_key (d : dbOps.t) (k : string) :
  dbOps.where_key k d = [] ->
  dbOps.Read k d = (([], Some (KeyNotFoundError ("key not found: " +:+ k))), d)
  /\ dbOps.Delete k d = (Some (KeyNotFoundError ("key not found: " +:+ k)), d)
  /\ dbOps.ReadAll k d = (([], None), d).
Proof.
  intros H. rewrite Read_rows, ReadAll_rows, H. split; [reflexivity|].
  split; [|reflexivity].
  unfold dbOps.Delete, dbOps.delete_rows. rewrite H. cbn.
  rewrite where_key_rows in H. rewrite (filter_none_all _ _ H). by destruct d.
Qed.

Lemma dbOps_missing_key_witness :
  dbOps.where_key "y" Sample.twoVersions = []
  /\ dbOps.ReadAll "y" Sample.twoVersions = (([], None), Sample.twoVersions).
Proof.
  assert (H : dbOps.where_key "y" Sample.twoVersions = []) by reflexivity.
  split; [exact H | exact (proj2 (proj2 (dbOps_missing_key _ "y" H)))].
Defined.

(** X8.  [Delete] of a key that has rows succeeds and removes them all:
    after it the key has no row, so that [Read] fails with a
    [KeyNotFoundError], and [Read] and [ReadAll] of every other key return
    what they returned before. *)
Theorem dbOps_Delete_present (d : dbOps.t) (k : string) :
  dbOps.where_key k d <> [] ->
  (dbOps.Delete k d).1 = None
  /\ dbOps.where_key k (dbOps.Delete k d).2 = []
  /\ (dbOps.Read k (dbOps.Delete k d).2).1
     = ([], Some (KeyNotFoundError ("key not found: " +:+ k)))
  /\ (forall k', k' <> k ->
        (dbOps.Read k' (dbOps.Delete k d).2).1 = (dbOps.Read k' d).1
        /\ (dbOps.ReadAll k' (dbOps.Delete k d).2).1 = (dbOps.ReadAll k' d).1).
Proof.
  intros H.
  assert (Hgone : dbOps.where_key k (dbOps.Delete k d).2 = []).
  { unfold dbOps.Delete, dbOps.delete_rows. cbn [snd].
    destruct (Z.of_nat _ =? 0); cbn [snd]; rewrite where_key_rows; cbn [dbOps.FILES];
      apply filter_same_key. }
  split; [|split; [exact Hgone | split]].
  - unfold dbOps.Delete, dbOps.delete_rows. cbn [snd fst].
    destruct (dbOps.where_key k d) as [|r l]; [done|]. reflexivity.
  - by rewrite Read_rows, Hgone.
  - intros k' Hne.
    apply (reads_other_write (Scenario.WDelete k) d k'). cbn. congruence.
Qed.

Lemma dbOps_Delete_present_witness :
  dbOps.where_key "x" Sample.twoVersions <> []
  /\ (dbOps.Delete "x" Sample.twoVersions).1 = None
  /\ dbOps.where_key "x" (dbOps.Delete "x" Sample.twoVersions).2 = [].
Proof.
  assert (H : dbOps.where_key "x" Sample.twoVersions <> []) by discriminate.
  split; [exact H|].
  destruct (dbOps_Delete_present _ "x" H) as (H1 & H2 & _). by split.
Defined.

(** X9.  [Create] of a key that has a row, the empty key apart, fails with
    the [KeyError] that names the key and leaves the table as it was. *)
Theorem dbOps_Create_present (d : dbOps.t) (k : string) :
  dbOps.where_key k d <> [] ->
  k <> EmptyString ->
  dbOps.Create k d = (Some (KeyError ("key already exists: " +:+ k)), d).
Proof.
  intros H Hk. unfold dbOps.Create, dbOps.select_key.
  destruct (dbOps.where_key k d) as [|r l] eqn:Hw; [done|].
  assert (Hr : dbOps.key r = k) by (apply (where_key_key k d); rewrite Hw; by left).
  cbn [dbOps.other_than_ErrNoRows]. rewrite Hr.
  by replace (String.eqb k EmptyString) with false
    by (symmetry; by apply String.eqb_neq).
Qed.

Lemma dbOps_Create_present_witness :
  dbOps.where_key "x" Sample.twoVersions <> []
  /\ "x" <> EmptyString
  /\ dbOps.Create "x" Sample.twoVersions
     = (Some (KeyError "key already exists: x"), Sample.twoVersions).
Proof.
  assert (H : dbOps.where_key "x" Sample.twoVersions <> []) by discriminate.
  assert (Hk : "x" <> EmptyString) by discriminate.
  split; [exact H|]. split; [exact Hk|]. exact (dbOps_Create_present _ "x" H Hk).
Defined.

(** X10.  [Create] of the empty key never fails on the PostgreSQL adapter:
    the test for an existing key compares the key found with the empty
    string, so every call adds one more row of version 0, and after two of
    them on a table without the key [ReadAll] returns two entries. *)
Theorem dbOps_Create_empty_key (d : dbOps.t) :
  (dbOps.Create EmptyString d).1 = None
  /\ length (dbOps.where_key EmptyString (dbOps.Create EmptyString d).2)
     = S (length (dbOps.where_key EmptyString d))
  /\ (dbOps.Create EmptyString (dbOps.Create EmptyString d).2).1 = None
  /\ (dbOps.where_key EmptyString d = [] ->
      (dbOps.ReadAll EmptyString
         (dbOps.Create EmptyString (dbOps.Create EmptyString d).2).2).1
      = ([[]; []], None)).
Proof.
  assert (Hc : forall d',
            dbOps.Create EmptyString d'
            = (None, (dbOps.insert_row EmptyString None 0 d').2)).
  { intros d'. unfold dbOps.Create, dbOps.select_key.
    destruct (dbOps.where_key EmptyString d') as [|r l] eqn:Hw; [reflexivity|].
    assert (Hr : dbOps.key r = EmptyString)
      by (apply (where_key_key _ d'); rewrite Hw; by left).
    cbn [dbOps.other_than_ErrNoRows]. by rewrite Hr. }
  rewrite !Hc. cbn [fst snd]. split; [reflexivity|].
  rewrite !ReadAll_rows, !where_key_insert. cbn [String.eqb].
  split; [rewrite length_app; cbn [length]; lia|]. split; [reflexivity|].
  intros ->. reflexivity.
Qed.

(** X11.  A call of the PostgreSQL adapter that writes to one key, [Create],
    [Put] or [Delete], changes nothing of what [Read] and [ReadAll] return
    for another key. *)
Theorem dbOps_other_keys (d : dbOps.t) (c : Scenario.db_write) (k' : string) :
  Scenario.db_write_key c <> k' ->
  (dbOps.Read k' (Scenario.db_apply d c)).1 = (dbOps.Read k' d).1
  /\ (dbOps.ReadAll k' (Scenario.db_apply d c)).1 = (dbOps.ReadAll k' d).1.
Proof.
  exact (reads_other_write c d k').
Qed.

Lemma dbOps_other_keys_witness :
  Scenario.db_write_key (Scenario.WDelete "y") <> "x"
  /\ (dbOps.ReadAll "x" (Scenario.db_apply Sample.twoVersions (Scenario.WDelete "y"))).1
     = (dbOps.ReadAll "x" Sample.twoVersions).1.
Proof.
  assert (H : Scenario.db_write_key (Scenario.WDelete "y") <> "x") by discriminate.
  split; [exact H | exact (proj2 (dbOps_other_keys Sample.twoVersions _ "x" H))].
Defined.


(** X13.  On the PostgreSQL adapter, [Create] of a key without rows and then
    [Put] of the entries v1, ..., vn: [ReadAll] returns n + 1 entries, the
    NULL value of the row that [Create] inserted and then v1, ..., vn in the
    order they were put, and [Read] returns vn. *)
Theorem dbOps_history (d : dbOps.t) (k : string) (vs : list bytes) :
  dbOps.where_key k d = [] ->
  let d' := Scenario.put_all k vs (dbOps.Create k d).2 in
  (dbOps.ReadAll k d').1 = ([] :: vs, None)
  /\ (dbOps.Read k d').1 = (List.last vs [], None).
Proof.
  intros H d'. subst d'. destruct (Create_then_read_db k d H) as (_ & Hall & Hread).
  split.
  - rewrite put_all_ReadAll. cbn zeta in Hall. by rewrite Hall.
  - destruct vs as [|v vs _] using rev_ind; [exact Hread|].
    rewrite put_all_Read. by rewrite List.last_last.
Qed.

Lemma dbOps_history_witness :
  dbOps.where_key "x" dbOps.empty = []
  /\ (dbOps.ReadAll "x"
        (Scenario.put_all "x" [Sample.hello; Sample.bye]
           (dbOps.Create "x" dbOps.empty).2)).1
     = ([[]; Sample.hello; Sample.bye], None).
Proof.
  assert (H : dbOps.where_key "x" dbOps.empty = []) by reflexivity.
  split; [exact H|].
  exact (proj1 (dbOps_history dbOps.empty "x" [Sample.hello; Sample.bye] H)).
Defined.

(** ** The error codes, there and back *)

Lemma TranslateToError_other (code : Z) (message : string) :
  code < 1 \/ 5 < code -> TranslateToError code message = errorString message.
Proof.
  intros H. destruct code as [|p|p]; [reflexivity| |reflexivity].
  destruct p as [[[p|p|]|[p|p|]|]|[[p|p|]|[p|p|]|]|]; try reflexivity; lia.
Qed.

(** X14.  An error built by [TranslateToError] and given to [NewError]: a
    code from 1 to 5 comes back with the message behind the prefix that
    the method [Error] of the five kinds puts before it, and every other
    code comes back as 0 with the message "unknown error".  So an error of
    one of the five kinds that crosses a boundary as code and message, and
    then another, keeps its code and has the prefix twice. *)
Theorem TranslateToError_NewError (code : Z) (message : string) :
  NewError (TranslateToError code message)
  = (if (1 <=? code) && (code <=? 5)
     then {| Code := code; Message := "libstore: " +:+ message |}
     else {| Code := 0; Message := "unknown error" |})
  /\ (forall err,
        kind_of err <> KOther ->
        NewError (TranslateToError (Code (NewError err)) (Message (NewError err)))
        = {| Code := Code (NewError err);
             Message := "libstore: " +:+ Message (NewError err) |}).
Proof.
  split.
  - destruct ((1 <=? code) && (code <=? 5)) eqn:Hc.
    + apply andb_prop in Hc as [H1 H5]. apply Z.leb_le in H1, H5.
      assert (code = 1 \/ code = 2 \/ code = 3 \/ code = 4 \/ code = 5) as Hcases by lia.
      destruct Hcases as [->|[->|[->|[->| ->]]]]; reflexivity.
    + rewrite TranslateToError_other; [reflexivity|].
      apply andb_false_iff in Hc as [H|H]; [apply Z.leb_gt in H | apply Z.leb_gt in H]; lia.
  - intros err H. destruct err; try reflexivity; by destruct H.
Qed.

(** ** The decorator, call by call *)

Section DecoratorCalls.

Import GoTime.

Context {Store Rand : Type} (m : CryptStore.t Store Rand).

Implicit Types (w : World Store Rand) (key : string).

Lemma call_frame {A : Type} (f : Store -> A * Store) w :
  (CryptStore.call f w).1 = (f (backend w)).1
  /\ backend (CryptStore.call f w).2 = (f (backend w)).2
  /\ entropy (CryptStore.call f w).2 = entropy w
  /\ clock (CryptStore.call f w).2 = clock w
  /\ ticks (CryptStore.call f w).2 = ticks w.
Proof. unfold CryptStore.call. by destruct (f (backend w)). Qed.

(** The loop of [ReadAll] reads the clock once for each envelope it gets
    through, and touches nothing else. *)
Lemma ReadAll_loop_world (vaults : list bytes) : forall i res w,
  let r := CryptStore.ReadAll_loop m vaults i res w in
  backend r.2 = backend w /\ entropy r.2 = entropy w /\ clock r.2 = clock w
  /\ (ticks w <= ticks r.2 <= ticks w + length vaults)%nat
  /\ (r.1.2 = None -> ticks r.2 = (ticks w + length vaults)%nat).
Proof.
  induction vaults as [|vault vaults IH]; intros i res w; cbn zeta.
  - cbn. repeat split; lia.
  - cbn [CryptStore.ReadAll_loop length].
    destruct (Decryptor_Crypt (CryptStore.decryptor m) vault) as [[r meta] [e|]];
      [cbn; repeat split; (lia || discriminate)|].
    destruct (Parse tsFormat (string_of_list_byte meta)) as [ts [e|]];
      [cbn; repeat split; (lia || discriminate)|].
    cbn [CryptStore.Now_UTC].
    destruct (After ts (clock w (ticks w)));
      [cbn; repeat split; (lia || discriminate)|].
    specialize (IH (S i) (<[i := r]> res)
                  {| backend := backend w; entropy := entropy w; clock := clock w;
                     ticks := S (ticks w) |}).
    cbn zeta in IH. cbn [backend entropy clock ticks] in IH.
    destruct IH as (Hb & He & Hc & Ht & Hok).
    repeat split; try assumption; try lia.
    intros H. rewrite (Hok H). lia.
Qed.

Lemma parse_loop_error al av cs : forall f value f' rest e,
  parse_loop al av cs f value = (f', rest, Some e) ->
  exists layoutElem valueElem message, e = ParseError al av layoutElem valueElem message.
Proof.
  induction cs as [|[[prefix s] stdstr] cs IH]; intros f value f' rest e;
    cbn [parse_loop]; [discriminate|].
  destruct (skip value prefix) as [value1 [|]].
  { intros [= _ _ <-]. unfold newParseError. by eexists _, _, _. }
  assert (Hstep :
    (let '(f1, value2, rangeErrString, err) :=
       parse_std s (next_std cs) f value1 in
     if negb (String.eqb rangeErrString EmptyString) then
       (f1, value2,
        Some (newParseError al av stdstr value2
                (": " +:+ rangeErrString +:+ " out of range")))
     else if err then (f1, value2, Some (newParseError al av stdstr value1 EmptyString))
     else parse_loop al av cs f1 value2) = (f', rest, Some e) ->
    exists layoutElem valueElem message, e = ParseError al av layoutElem valueElem message).
  { destruct (parse_std s (next_std cs) f value1) as [[[f1 value2] rangeErrString] err].
    destruct (negb _); [intros [= _ _ <-]; unfold newParseError; by eexists _, _, _|].
    destruct err; [intros [= _ _ <-]; unfold newParseError; by eexists _, _, _|].
    apply IH. }
  destruct s; try exact Hstep.
  destruct (0 <? length value1)%nat; [|discriminate].
  intros [= _ _ <-]. unfold newParseError. by eexists _, _, _.
Qed.

(** An error of [Parse] is a [*time.ParseError] of the layout and value. *)
Lemma Parse_error layout value t e :
  Parse layout value = (t, Some e) ->
  exists layoutElem valueElem message,
    e = ParseError layout value layoutElem valueElem message.
Proof.
  unfold Parse.
  destruct (parse_loop layout value (chunks layout) fields0 (list_ascii_of_string value))
    as [[f rest] [e'|]] eqn:Hloop.
  - intros [= _ <-]. exact (parse_loop_error _ _ _ _ _ _ _ _ Hloop).
  - destruct (_ || _)%bool.
    + intros [= _ <-]. unfold newParseError. by eexists _, _, _.
    + destruct (f_z f); [discriminate|]. destruct (negb _); discriminate.
Qed.

End DecoratorCalls.

(** X15.  [Create] and [Delete] of the decorator are the calls of the
    wrapped store, and [List] is its call with the nil slice in place of
    the result when the wrapped store fails.  None of the three touches the
    randomness source or reads the clock. *)
Theorem CryptStore_passes_through {Store Rand : Type}
  (m : CryptStore.t Store Rand) (key : string) (w : World Store Rand) :
  CryptStore.Create m key w = CryptStore.call (Ops_Create (CryptStore.storeOps m) key) w
  /\ CryptStore.Delete m key w
     = CryptStore.call (Ops_Delete (CryptStore.storeOps m) key) w
  /\ CryptStore.List_ m w
     = (let '((keys, err), w') := CryptStore.call (Ops_List (CryptStore.storeOps m)) w in
        ((match err with Some _ => [] | None => keys end, err), w'))
  /\ (forall w',
        w' = (CryptStore.Create m key w).2 \/ w' = (CryptStore.Delete m key w).2
        \/ w' = (CryptStore.List_ m w).2 ->
        entropy w' = entropy w /\ clock w' = clock w /\ ticks w' = ticks w).
Proof.
  assert (HC : CryptStore.Create m key w
               = CryptStore.call (Ops_Create (CryptStore.storeOps m) key) w).
  { unfold CryptStore.Create.
    by destruct (CryptStore.call (Ops_Create _ key) w) as [[e|] w']. }
  assert (HD : CryptStore.Delete m key w
               = CryptStore.call (Ops_Delete (CryptStore.storeOps m) key) w).
  { unfold CryptStore.Delete.
    by destruct (CryptStore.call (Ops_Delete _ key) w) as [[e|] w']. }
  assert (HL : CryptStore.List_ m w
     = (let '((keys, err), w') := CryptStore.call (Ops_List (CryptStore.storeOps m)) w in
        ((match err with Some _ => [] | None => keys end, err), w'))).
  { unfold CryptStore.List_.
    by destruct (CryptStore.call (Ops_List _) w) as [[keys [e|]] w']. }
  split; [exact HC|]. split; [exact HD|]. split; [exact HL|].
  intros w' [->|[->| ->]].
  - rewrite HC. by destruct (call_frame (Ops_Create (CryptStore.storeOps m) key) w)
      as (_ & _ & ? & ? & ?).
  - rewrite HD. by destruct (call_frame (Ops_Delete (CryptStore.storeOps m) key) w)
      as (_ & _ & ? & ? & ?).
  - rewrite HL.
    destruct (call_frame (Ops_List (CryptStore.storeOps m)) w) as (_ & _ & ? & ? & ?).
    by destruct (CryptStore.call (Ops_List _) w) as [[keys err] w''].
Qed.

(** X16.  When the sealing capability fails, [Put] of the decorator returns
    an error that wraps a [DecryptionError] and the capability's error,
    whose text is the two texts with a colon between them; the wrapped
    store is not called, the clock has been read once and the randomness
    source is as the capability left it. *)
Theorem CryptStore_Put_seal_failure {Store Rand : Type}
  (m : CryptStore.t Store Rand) (key : string) (entry vault : bytes)
  (w : World Store Rand) (e : error) (rnd : Rand) :
  Encryptor_Crypt (CryptStore.encryptor m) entry
    (list_byte_of_string (GoTime.Format (clock w (ticks w)) tsFormat)) (entropy w)
  = ((vault, Some e), rnd) ->
  exists err,
    CryptStore.Put m key entry w
    = (Some err, {| backend := backend w; entropy := rnd; clock := clock w;
                    ticks := S (ticks w) |})
    /\ err = wrapErrors (Error err) [DecryptionError "failed to encrypt entry"; e]
    /\ Error err
       = "libstore/ops: decryption error: failed to encrypt entry: " +:+ Error e
    /\ As_DecryptionError err = true.
Proof.
  intros H. eexists. unfold CryptStore.Put, CryptStore.seal, CryptStore.Now_UTC.
  cbn [backend entropy clock ticks]. rewrite H. repeat split.
Qed.

Lemma CryptStore_Put_seal_failure_witness :
  let w := Sample.world {[ "k" := [] ]} Sample.clock2024 in
  Encryptor_Crypt (CryptStore.encryptor Sample.brokenStore) Sample.hello
    (list_byte_of_string (GoTime.Format (clock w (ticks w)) tsFormat)) (entropy w)
  = (([], Some Sample.noEntropy), tt)
  /\ exists err,
       (CryptStore.Put Sample.brokenStore "k" Sample.hello w).1 = Some err
       /\ As_DecryptionError err = true
       /\ backend (CryptStore.Put Sample.brokenStore "k" Sample.hello w).2 = backend w.
Proof.
  intros w.
  assert (H : Encryptor_Crypt (CryptStore.encryptor Sample.brokenStore) Sample.hello
                (list_byte_of_string (GoTime.Format (clock w (ticks w)) tsFormat))
                (entropy w)
              = (([], Some Sample.noEntropy), tt)) by reflexivity.
  split; [exact H|].
  destruct (CryptStore_Put_seal_failure Sample.brokenStore "k" Sample.hello [] w _ _ H)
    as (err & HPut & _ & _ & HAs).
  exists err. rewrite HPut. by repeat split.
Defined.

(** X17.  When the sealing capability succeeds, [Put] of the decorator hands
    the wrapped [Put] the envelope the capability returned for the entry
    and the text of the clock reading, and returns what the wrapped [Put]
    returns, its error unchanged; the wrapped store is left as that call
    leaves it. *)
Theorem CryptStore_Put_forwards {Store Rand : Type}
  (m : CryptStore.t Store Rand) (key : string) (entry vault : bytes)
  (w : World Store Rand) (rnd : Rand) :
  Encryptor_Crypt (CryptStore.encryptor m) entry
    (list_byte_of_string (GoTime.Format (clock w (ticks w)) tsFormat)) (entropy w)
  = ((vault, None), rnd) ->
  CryptStore.Put m key entry w
  = ((Ops_Put (CryptStore.storeOps m) key vault (backend w)).1,
     {| backend := (Ops_Put (CryptStore.storeOps m) key vault (backend w)).2;
        entropy := rnd; clock := clock w; ticks := S (ticks w) |}).
Proof.
  intros H. unfold CryptStore.Put, CryptStore.seal, CryptStore.call, CryptStore.Now_UTC.
  cbn [backend entropy clock ticks]. rewrite H. cbn [backend entropy clock ticks].
  by destruct (Ops_Put _ _ _ _) as [[e|] s'].
Qed.

Lemma CryptStore_Put_forwards_witness :
  let w := Sample.world ∅ Sample.clock2024 in
  let vault := Sample.envelope Sample.hello (Sample.clock2024 0) in
  Encryptor_Crypt (CryptStore.encryptor Sample.store) Sample.hello
    (list_byte_of_string (GoTime.Format (clock w (ticks w)) tsFormat)) (entropy w)
  = ((vault, None), tt)
  /\ (CryptStore.Put Sample.store "k" Sample.hello w).1
     = Some (KeyNotFoundError "key k not found").
Proof.
  intros w vault.
  assert (H : Encryptor_Crypt (CryptStore.encryptor Sample.store) Sample.hello
                (list_byte_of_string (GoTime.Format (clock w (ticks w)) tsFormat))
                (entropy w)
              = ((vault, None), tt)) by reflexivity.
  split; [exact H|].
  by rewrite (CryptStore_Put_forwards Sample.store "k" Sample.hello vault w tt H).
Defined.

(** X18.  An envelope that opens but whose associated data is not a
    timestamp of the layout: [Read] of the decorator returns the error of
    [time.Parse], a [*time.ParseError] that carries the layout and the
    associated data, and not the plaintext; the clock is not read. *)
Theorem CryptStore_Read_malformed_timestamp {Store Rand : Type}
  (m : CryptStore.t Store Rand) (key : string) (w w1 : World Store Rand)
  (vault res meta : bytes) (t : GoTime.Time) (e : error) :
  CryptStore.call (Ops_Read (CryptStore.storeOps m) key) w = ((vault, None), w1) ->
  Decryptor_Crypt (CryptStore.decryptor m) vault = ((res, meta), None) ->
  GoTime.Parse tsFormat (string_of_list_byte meta) = (t, Some e) ->
  CryptStore.Read m key w = (([], Some e), w1)
  /\ ticks w1 = ticks w
  /\ exists layoutElem valueElem message,
       e = ParseError tsFormat (string_of_list_byte meta) layoutElem valueElem message.
Proof.
  intros Hc Hd Hp. split; [|split].
  - unfold CryptStore.Read. by rewrite Hc, Hd, Hp.
  - destruct (call_frame (Ops_Read (CryptStore.storeOps m) key) w) as (_ & _ & _ & _ & Ht).
    by rewrite Hc in Ht.
  - exact (Parse_error _ _ _ _ Hp).
Qed.

Lemma CryptStore_Read_malformed_timestamp_witness :
  let vault := Sample.sealed Sample.hello (list_byte_of_string "yesterday") in
  let w := Sample.world {[ "k" := [vault] ]} Sample.clock2024 in
  CryptStore.call (Ops_Read (CryptStore.storeOps Sample.store) "k") w = ((vault, None), w)
  /\ Decryptor_Crypt (CryptStore.decryptor Sample.store) vault
     = ((Sample.hello, list_byte_of_string "yesterday"), None)
  /\ (CryptStore.Read Sample.store "k" w).1
     = ([], Some (ParseError tsFormat "yesterday" "2006" "yesterday" EmptyString)).
Proof.
  intros vault w.
  assert (Hc : CryptStore.call (Ops_Read (CryptStore.storeOps Sample.store) "k") w
               = ((vault, None), w)) by (vm_compute; reflexivity).
  assert (Hd : Decryptor_Crypt (CryptStore.decryptor Sample.store) vault
               = ((Sample.hello, list_byte_of_string "yesterday"), None))
    by (vm_compute; reflexivity).
  assert (Hp : GoTime.Parse tsFormat (string_of_list_byte (list_byte_of_string "yesterday"))
               = (GoTime.zeroTime,
                  Some (ParseError tsFormat "yesterday" "2006" "yesterday" EmptyString)))
    by (vm_compute; reflexivity).
  split; [exact Hc|]. split; [exact Hd|].
  by rewrite (proj1 (CryptStore_Read_malformed_timestamp Sample.store "k" w w vault _ _ _ _
                       Hc Hd Hp)).
Defined.

(** X19.  [ReadAll] of the decorator reads the clock once for each envelope
    it gets through: as many times as there are envelopes when it
    succeeds, and no more than that when it fails.  It leaves the
    randomness source alone and the wrapped store as the wrapped [ReadAll]
    left it. *)
Theorem CryptStore_ReadAll_clock_readings {Store Rand : Type}
  (m : CryptStore.t Store Rand) (key : string) (w w1 : World Store Rand)
  (vaults : list bytes) :
  CryptStore.call (Ops_ReadAll (CryptStore.storeOps m) key) w = ((vaults, None), w1) ->
  let r := CryptStore.ReadAll m key w in
  backend r.2 = backend w1
  /\ entropy r.2 = entropy w
  /\ clock r.2 = clock w
  /\ (ticks w <= ticks r.2 <= ticks w + length vaults)%nat
  /\ (r.1.2 = None -> ticks r.2 = (ticks w + length vaults)%nat).
Proof.
  intros H r. subst r. unfold CryptStore.ReadAll. rewrite H.
  destruct (call_frame (Ops_ReadAll (CryptStore.storeOps m) key) w)
    as (_ & _ & He & Hc & Ht).
  rewrite H in He, Hc, Ht. cbn [snd] in He, Hc, Ht.
  pose proof (ReadAll_loop_world m vaults 0 (replicate (length vaults) []) w1) as Hl.
  cbn zeta in Hl. rewrite He, Hc, Ht in Hl. exact Hl.
Qed.

Lemma CryptStore_ReadAll_clock_readings_witness :
  let w := Sample.dbWorld Sample.twoVersions Sample.clock2024 2 in
  CryptStore.call (Ops_ReadAll (CryptStore.storeOps Sample.dbStore) "x") w
    = (([Sample.envelope Sample.hello (Sample.clock2024 0);
         Sample.envelope Sample.bye (Sample.clock2024 1)], None), w)
  /\ (ticks w <= ticks (CryptStore.ReadAll Sample.dbStore "x" w).2 <= ticks w + 2)%nat.
Proof.
  intros w.
  assert (H : CryptStore.call (Ops_ReadAll (CryptStore.storeOps Sample.dbStore) "x") w
              = (([Sample.envelope Sample.hello (Sample.clock2024 0);
                   Sample.envelope Sample.bye (Sample.clock2024 1)], None), w))
    by (vm_compute; reflexivity).
  split; [exact H|].
  exact (proj1 (proj2 (proj2 (proj2
           (CryptStore_ReadAll_clock_readings Sample.dbStore "x" w w _ H))))).
Defined.

(** ** The decorator over the adapters *)

(** X20.  The decorator over the in-memory adapter: when the opening
    capability inverts the sealing capability, the clock reading at the
    seal is an instant in a year of four digits and the next reading is
    not before it, a [Put] that succeeds is followed by a [ReadAll] that
    returns the plaintext and nothing else, whatever the key held before. *)
Theorem CryptStore_InMemoryOps_Put_ReadAll {Rand : Type}
  (m : CryptStore.t (gmap string (list bytes)) Rand) (key : string) (p : bytes)
  (w w1 : World (gmap string (list bytes)) Rand) :
  CryptStore.storeOps m = InMemoryOps.ops ->
  CryptStore.inverts m ->
  GoTime.stampable (clock w (ticks w)) ->
  GoTime.After (clock w (ticks w)) (clock w (S (ticks w))) = false ->
  CryptStore.Put m key p w = (None, w1) ->
  (CryptStore.ReadAll m key w1).1 = ([p], None).
Proof.
  intros Hops Hinv Hstamp Hmono HPut.
  destruct (Put_ok_inv m key p w w1 HPut) as (vault & rnd' & Hseal & Hput & Hc & Ht).
  rewrite Hops in Hput. cbn [Ops_Put InMemoryOps.ops] in Hput.
  apply Put_ok in Hput.
  assert (Hopens : CryptStore.opens m vault p (clock w (ticks w))).
  { eexists. split; [exact (Hinv _ _ _ _ _ Hseal)|].
    rewrite string_of_list_byte_of_string. by apply Parse_Format. }
  assert (Hcall : exists w2,
            CryptStore.call (Ops_ReadAll (CryptStore.storeOps m) key) w1
            = (([vault], None), w2)).
  { unfold CryptStore.call. rewrite Hops, Hput. cbn [Ops_ReadAll InMemoryOps.ops].
    unfold InMemoryOps.ReadAll. rewrite lookup_insert_eq. by eexists. }
  destruct Hcall as [w2 Hcall].
  rewrite (ReadAll_open_all m key w1 [vault] w2 Hcall). cbn [CryptStore.open_all].
  rewrite (opens_check m vault p _ _ Hopens). by rewrite Hc, Ht, Hmono.
Qed.

Lemma CryptStore_InMemoryOps_Put_ReadAll_witness :
  let w := Sample.world {[ "k" := [[Byte.x02]] ]} Sample.clock2024 in
  CryptStore.storeOps Sample.store = InMemoryOps.ops
  /\ CryptStore.inverts Sample.store
  /\ GoTime.stampable (clock w (ticks w))
  /\ GoTime.After (clock w (ticks w)) (clock w (S (ticks w))) = false
  /\ (CryptStore.Put Sample.store "k" Sample.hello w).1 = None
  /\ (CryptStore.ReadAll Sample.store "k"
        (CryptStore.Put Sample.store "k" Sample.hello w).2).1 = ([Sample.hello], None).
Proof.
  intros w.
  assert (Hinv : CryptStore.inverts Sample.store).
  { intros entry ad rnd vault rnd' [= <- _]. apply opened_sealed. }
  assert (Hst : GoTime.stampable (clock w (ticks w)))
    by (repeat split; (reflexivity || (cbn; lia))).
  assert (Hmono : GoTime.After (clock w (ticks w)) (clock w (S (ticks w))) = false)
    by (vm_compute; reflexivity).
  assert (HPut : exists w1, CryptStore.Put Sample.store "k" Sample.hello w = (None, w1)).
  { destruct (CryptStore.Put Sample.store "k" Sample.hello w) as [o w1] eqn:E.
    assert (Ho : o = (CryptStore.Put Sample.store "k" Sample.hello w).1) by (by rewrite E).
    vm_compute in Ho. subst o. by exists w1. }
  destruct HPut as [w1 HPut]. rewrite HPut.
  split; [reflexivity|]. split; [exact Hinv|]. split; [exact Hst|].
  split; [exact Hmono|]. split; [reflexivity|].
  exact (CryptStore_InMemoryOps_Put_ReadAll Sample.store "k" Sample.hello w w1
           eq_refl Hinv Hst Hmono HPut).
Defined.

(** X21.  The decorator over the PostgreSQL adapter, with an opening
    capability that rejects the empty envelope: after [Create] of a key
    without rows, [Read] and [ReadAll] of the decorator fail with the
    capability's error, and [ReadAll] goes on failing with it after any
    number of entries have been put on the key, because the NULL value of
    the row that [Create] inserted is the first envelope it opens. *)
Theorem CryptStore_dbOps_marker_row {Rand : Type}
  (m : CryptStore.t dbOps.t Rand) (k : string) (w : World dbOps.t Rand)
  (res meta : bytes) (e : error) :
  CryptStore.storeOps m = dbOps.ops ->
  Decryptor_Crypt (CryptStore.decryptor m) [] = ((res, meta), Some e) ->
  dbOps.where_key k (backend w) = [] ->
  let w1 := (CryptStore.Create m k w).2 in
  (CryptStore.Create m k w).1 = None
  /\ (CryptStore.Read m k w1).1 = ([], Some e)
  /\ (CryptStore.ReadAll m k w1).1 = ([], Some e)
  /\ (forall vs w2,
        backend w2 = Scenario.put_all k vs (backend w1) ->
        (CryptStore.ReadAll m k w2).1 = ([], Some e)).
Proof.
  intros Hops Hd Hk w1. subst w1.
  destruct (Create_then_read_db k (backend w) Hk) as (HC & Hall & Hread).
  cbn zeta in Hall, Hread.
  assert (HCreate : CryptStore.Create m k w
            = (None, {| backend := (dbOps.Create k (backend w)).2; entropy := entropy w;
                        clock := clock w; ticks := ticks w |})).
  { unfold CryptStore.Create, CryptStore.call. rewrite Hops. cbn [Ops_Create dbOps.ops].
    destruct (dbOps.Create k (backend w)) as [o d']. cbn [fst] in HC. by subst o. }
  rewrite HCreate. cbn [fst snd backend].
  assert (Hfirst : forall vs w2,
            backend w2 = Scenario.put_all k vs (dbOps.Create k (backend w)).2 ->
            (CryptStore.ReadAll m k w2).1 = ([], Some e)).
  { intros vs w2 Hb.
    assert (Hcall : exists w3,
              CryptStore.call (Ops_ReadAll (CryptStore.storeOps m) k) w2
              = (([] :: vs, None), w3)).
    { unfold CryptStore.call. rewrite Hops, Hb. cbn [Ops_ReadAll dbOps.ops].
      pose proof (put_all_ReadAll k vs (dbOps.Create k (backend w)).2) as Hr.
      rewrite Hall in Hr. cbn [fst app] in Hr.
      destruct (dbOps.ReadAll k (Scenario.put_all k vs _)) as [r d'].
      cbn [fst] in Hr. subst r. by eexists. }
    destruct Hcall as [w3 Hcall].
    rewrite (ReadAll_open_all m k w2 _ w3 Hcall).
    cbn [CryptStore.open_all]. unfold CryptStore.open_and_check. by rewrite Hd. }
  split; [reflexivity|]. split; [|split; [|exact Hfirst]].
  - unfold CryptStore.Read, CryptStore.call. rewrite Hops.
    cbn [Ops_Read dbOps.ops backend].
    destruct (dbOps.Read k _) as [r d']. cbn [fst] in Hread. subst r. by rewrite Hd.
  - by apply (Hfirst []).
Qed.

Lemma CryptStore_dbOps_marker_row_witness :
  let w := Sample.dbWorld dbOps.empty Sample.clock2024 0 in
  CryptStore.storeOps Sample.dbStore = dbOps.ops
  /\ Decryptor_Crypt (CryptStore.decryptor Sample.dbStore) [] = (([], []), Some Sample.authFailed)
  /\ dbOps.where_key "x" (backend w) = []
  /\ (CryptStore.ReadAll Sample.dbStore "x" (CryptStore.Create Sample.dbStore "x" w).2).1
     = ([], Some Sample.authFailed).
Proof.
  intros w. split; [reflexivity|]. split; [reflexivity|]. split; [reflexivity|].
  exact (proj1 (proj2 (proj2
           (CryptStore_dbOps_marker_row Sample.dbStore "x" w [] [] Sample.authFailed
              eq_refl eq_refl eq_refl)))).
Defined.

(** ** The S3 adapter *)

Section S3Facts.

Context {C : Type} (s : S3Ops.Client C).

Lemma List_pages_ok (pages : list (list string * option error)) : forall keys,
  Forall (fun page => page.2 = None) pages ->
  S3Ops.List_pages pages keys = (keys ++ concat (pages.*1), None).
Proof.
  induction pages as [|[contents err] pages IH]; intros keys H; cbn.
  - by rewrite app_nil_r.
  - inversion H as [|? ? Herr Hrest]; subst. cbn in Herr. subst err.
    rewrite IH by assumption. by rewrite <- app_assoc.
Qed.

Lemma List_pages_error (pages : list (list string * option error)) : forall keys i contents e,
  pages !! i = Some (contents, Some e) ->
  (forall j page, (j < i)%nat -> pages !! j = Some page -> page.2 = None) ->
  S3Ops.List_pages pages keys
  = ([], Some (Errorf_w_w (OpsInternalError "failed to list keys") e)).
Proof.
  induction pages as [|[contents0 err] pages IH]; intros keys i contents e Hi Hbefore.
  - by rewrite lookup_nil in Hi.
  - destruct i as [|i]; cbn in Hi.
    + injection Hi as -> ->. reflexivity.
    + pose proof (Hbefore O _ (Nat.lt_0_succ i) eq_refl) as H0. cbn in H0. subst err.
      cbn [S3Ops.List_pages]. apply (IH _ i contents e Hi).
      intros j page Hj Hp. apply (Hbefore (S j)); [lia | exact Hp].
Qed.

End S3Facts.

(** X22.  [ReadAll] of the S3 adapter returns, when it succeeds, exactly one
    entry, the whole content of the object; [Read] then returns that entry,
    and when [ReadAll] fails [Read] fails with its error.  So the test of
    [Read] for an empty sequence never holds: [Read] returns no
    [EntryError] of its own, for an empty object neither. *)
Theorem S3Ops_Read_whole_object {C : Type} (s : S3Ops.Client C) (key : string) (c : C) :
  (S3Ops.Read s key c).2 = (S3Ops.ReadAll s key c).2
  /\ (forall e,
        (S3Ops.ReadAll s key c).1.2 = Some e -> (S3Ops.Read s key c).1 = ([], Some e))
  /\ ((S3Ops.ReadAll s key c).1.2 = None ->
      exists content,
        (S3Ops.GetObject s key c).1 = ((content, None), None)
        /\ (S3Ops.ReadAll s key c).1 = ([content], None)
        /\ (S3Ops.Read s key c).1 = (content, None)).
Proof.
  unfold S3Ops.Read, S3Ops.ReadAll.
  destruct (S3Ops.GetObject s key c) as [[[content readErr] [e|]] c'].
  - destruct (S3Ops.As_NotFound s e); cbn; repeat split;
      (discriminate || by intros ? [= <-]).
  - destruct readErr as [e|]; cbn; repeat split;
      try (discriminate || by intros ? [= <-]).
    intros _. by exists content.
Qed.

(** X23.  [Create] of the S3 adapter on a key that [HeadObject] reports as
    not found stores an empty object.  When the client then returns that
    object, [ReadAll] returns one entry, the empty content, and [Read]
    returns the empty content and no error. *)
Theorem S3Ops_Create_then_read {C : Type} (s : S3Ops.Client C) (key : string)
  (c c1 c2 c3 : C) (e : error) :
  S3Ops.HeadObject s key c = (Some e, c1) ->
  S3Ops.As_NotFound s e = true ->
  S3Ops.PutObject s key [] c1 = (None, c2) ->
  S3Ops.GetObject s key c2 = ((([], None), None), c3) ->
  S3Ops.Create s key c = (None, c2)
  /\ S3Ops.ReadAll s key c2 = (([[]], None), c3)
  /\ S3Ops.Read s key c2 = (([], None), c3).
Proof.
  intros Hh Hnf Hp Hg. unfold S3Ops.Create, S3Ops.Read, S3Ops.ReadAll.
  by rewrite Hh, Hnf, Hp, Hg.
Qed.

Lemma S3Ops_Create_then_read_witness :
  S3Ops.HeadObject Scenario.bucket "k" ∅ = (Some Scenario.notFound, ∅)
  /\ S3Ops.As_NotFound Scenario.bucket Scenario.notFound = true
  /\ S3Ops.PutObject Scenario.bucket "k" [] ∅ = (None, {[ "k" := [] ]})
  /\ S3Ops.GetObject Scenario.bucket "k" {[ "k" := [] ]}
     = ((([], None), None), {[ "k" := [] ]})
  /\ S3Ops.Read Scenario.bucket "k" {[ "k" := [] ]} = (([], None), {[ "k" := [] ]}).
Proof.
  assert (Hh : S3Ops.HeadObject Scenario.bucket "k" ∅ = (Some Scenario.notFound, ∅))
    by reflexivity.
  assert (Hnf : S3Ops.As_NotFound Scenario.bucket Scenario.notFound = true)
    by reflexivity.
  assert (Hp : S3Ops.PutObject Scenario.bucket "k" [] ∅ = (None, {[ "k" := [] ]}))
    by reflexivity.
  assert (Hg : S3Ops.GetObject Scenario.bucket "k" {[ "k" := [] ]}
               = ((([], None), None), {[ "k" := [] ]})) by reflexivity.
  split; [exact Hh|]. split; [exact Hnf|]. split; [exact Hp|]. split; [exact Hg|].
  exact (proj2 (proj2 (S3Ops_Create_then_read Scenario.bucket "k" _ _ _ _ _
                         Hh Hnf Hp Hg))).
Defined.

(** X24.  [List] of the S3 adapter returns the keys of the pages in the order
    of the pages when no page fails; when a page fails and those before it
    do not, it returns the nil slice and that page's error wrapped in an
    [OpsInternalError], and the keys of the pages before are dropped. *)
Theorem S3Ops_List_pages {C : Type} (s : S3Ops.Client C) (c : C) :
  let pages := (S3Ops.ListObjectsV2 s c).1 in
  (Forall (fun page => page.2 = None) pages ->
   (S3Ops.List_ s c).1 = (concat (pages.*1), None))
  /\ (forall i contents e,
        pages !! i = Some (contents, Some e) ->
        (forall j page, (j < i)%nat -> pages !! j = Some page -> page.2 = None) ->
        (S3Ops.List_ s c).1
        = ([], Some (wrapErrors ("libstore: failed to list keys: " +:+ Error e)
                       [OpsInternalError "failed to list keys"; e]))).
Proof.
  cbn zeta. unfold S3Ops.List_.
  destruct (S3Ops.ListObjectsV2 s c) as [pages c']. cbn [fst]. split.
  - intros H. by rewrite (List_pages_ok pages [] H).
  - intros i contents e Hi Hbefore.
    by rewrite (List_pages_error pages [] i contents e Hi Hbefore).
Qed.
